(** * Two-timer PWM sound synthesis on the SAMD51: a shallow embedding

    The sketch [sketch_SAMD51_PWM_HelloWorld_twotimerHarmonics-snyth]
    drives a speaker from two timers.  TCC1 produces a 240 kHz carrier
    whose compare register CC[0] is the volume; TCC2 runs at the audible
    rate and raises an overflow (OVF) and a match (MC0) interrupt whose
    handlers rewrite TCC1->CC[0].  [loop] polls four potentiometers,
    filters them, derives the synthesis parameters and reprograms TCC2
    through [UpdateTF].

    Integers are [Z] with the 16/32-bit wrap-around written out, [float]
    and [double] are IEEE-754 binary32 and binary64 as specified by the
    standard library's [SpecFloat], and the C statements are state
    transformers on a record of the sketch's globals and of the timer
    registers it stores to.  Undefined behaviour of C (division by zero,
    conversion of an unrepresentable floating value to an integer) is
    [None]. *)

From Stdlib Require Import ZArith List Lia Bool QArith Qround.
From Stdlib Require Import Floats.SpecFloat.
Import ListNotations.

Local Open Scope Z_scope.

(** ** Machine integers (ARM Cortex-M4: [int] and [long] are 32 bits) *)

Definition to_uint16 (z : Z) : Z := z mod 2 ^ 16.
Definition to_uint32 (z : Z) : Z := z mod 2 ^ 32.
Definition to_int32 (z : Z) : Z := (z + 2 ^ 31) mod 2 ^ 32 - 2 ^ 31.

Definition in_int32 (z : Z) : bool := (- 2 ^ 31 <=? z) && (z <? 2 ^ 31).
Definition in_uint32 (z : Z) : bool := (0 <=? z) && (z <? 2 ^ 32).

(** Arduino's [abs] is the macro [((x)>0?(x):-(x))]. *)
Definition c_abs (x : Z) : Z := if 0 <? x then x else to_int32 (- x).

(** ** Partial computations *)

Notation "x <- c ;; k" :=
  (match c with Some x => k | None => None end)
  (at level 61, c at next level, right associativity).

(** ** IEEE-754 arithmetic

    [float] is binary32 (24-bit significand), [double] is binary64.  Both
    live in [spec_float]; the operation names say which format rounds. *)

Definition f32_of_int (z : Z) : spec_float := binary_normalize 24 128 z 0 false.
Definition f64_of_int (z : Z) : spec_float := binary_normalize 53 1024 z 0 false.

Definition f32_mul : spec_float -> spec_float -> spec_float := SFmul 24 128.
Definition f64_mul : spec_float -> spec_float -> spec_float := SFmul 53 1024.
Definition f64_div : spec_float -> spec_float -> spec_float := SFdiv 53 1024.
Definition f64_sub : spec_float -> spec_float -> spec_float := SFsub 53 1024.

(** [(float)d]: round a double to the nearest float. *)
Definition f32_of_f64 (d : spec_float) : spec_float :=
  match d with
  | S754_finite s m e => binary_round 24 128 s m e
  | _ => d
  end.

(** The usual arithmetic conversion of a float operand to double (exact). *)
Definition f64_of_f32 (f : spec_float) : spec_float :=
  match f with
  | S754_finite s m e => binary_round 53 1024 s m e
  | _ => f
  end.

(** A decimal literal [n/d] written in the source, e.g. [0.15]: the double
    nearest to it. *)
Definition f64_lit (n d : Z) : spec_float := f64_div (f64_of_int n) (f64_of_int d).

(** Integer part of a floating value, toward zero. *)
Definition trunc (x : spec_float) : option Z :=
  match x with
  | S754_zero _ => Some 0
  | S754_finite s m e => Some (cond_Zopp s (Z.shiftl (Zpos m) e))
  | _ => None
  end.

(** [(int)x]: defined when the integer part is representable. *)
Definition int_of_float (x : spec_float) : option Z :=
  z <- trunc x ;; if in_int32 z then Some z else None.

(** Conversion to an unsigned 32-bit register value. *)
Definition uint32_of_float (x : spec_float) : option Z :=
  z <- trunc x ;; if in_uint32 z then Some z else None.

(** The exact rational value of a finite floating number. *)
Definition F2Q (x : spec_float) : Q :=
  match x with
  | S754_finite s m (Zneg p) => cond_Zopp s (Zpos m) # (2 ^ p)
  | S754_finite s m e => inject_Z (cond_Zopp s (Zpos m) * 2 ^ e)
  | _ => 0%Q
  end.

(** ** The sketch's state *)

(** Timer registers the sketch stores to once the timers run. *)
Inductive reg := TCC1_PER | TCC1_CC0 | TCC2_PER | TCC2_CC0.

Definition reg_eqb (a b : reg) : bool :=
  match a, b with
  | TCC1_PER, TCC1_PER | TCC1_CC0, TCC1_CC0
  | TCC2_PER, TCC2_PER | TCC2_CC0, TCC2_CC0 => true
  | _, _ => false
  end.

(** The peripherals: register contents, the two interrupt flags of TCC2,
    and the register stores performed so far, most recent first. *)
Record periph := mkPeriph {
  regs : reg -> Z;
  INTFLAG_OVF : bool;
  INTFLAG_MC0 : bool;
  stores : list (reg * Z)
}.

(** [r.reg = v] on a 32-bit register. *)
Definition store (r : reg) (v : Z) (p : periph) : periph :=
  {| regs := fun r' => if reg_eqb r' r then to_uint32 v else regs p r';
     INTFLAG_OVF := INTFLAG_OVF p;
     INTFLAG_MC0 := INTFLAG_MC0 p;
     stores := (r, to_uint32 v) :: stores p |}.

(** The globals of the sketch.  [ULFO], [ULFOvalue], [time4]..[time6]
    and [count3] are never read and are left out. *)
Record globals := mkGlobals {
  VOL : Z;
  harmonic_ratio : spec_float;
  VOL_harmonic : Z;
  TF : Z;
  TCTOPL : Z;
  TCTOP : Z;
  pulsefraction : spec_float;
  harmonic : bool;
  readHarmonicRatio : Z;
  readVOL : Z;
  readPulseFraction : Z;
  readTF : Z;
  LFO : bool;
  LFOvalue : spec_float;
  time1 : Z;
  time2 : Z;
  time3 : Z;
  count : Z;
  count2 : Z
}.

Record state := mkState { g : globals; hw : periph }.

Definition set_harmonic (b : bool) (v : globals) : globals :=
  mkGlobals (VOL v) (harmonic_ratio v) (VOL_harmonic v) (TF v) (TCTOPL v)
    (TCTOP v) (pulsefraction v) b (readHarmonicRatio v) (readVOL v)
    (readPulseFraction v) (readTF v) (LFO v) (LFOvalue v) (time1 v)
    (time2 v) (time3 v) (count v) (count2 v).

Definition set_TCTOP (l t : Z) (v : globals) : globals :=
  mkGlobals (VOL v) (harmonic_ratio v) (VOL_harmonic v) (TF v) l t
    (pulsefraction v) (harmonic v) (readHarmonicRatio v) (readVOL v)
    (readPulseFraction v) (readTF v) (LFO v) (LFOvalue v) (time1 v)
    (time2 v) (time3 v) (count v) (count2 v).

Definition set_time1 (t : Z) (v : globals) : globals :=
  mkGlobals (VOL v) (harmonic_ratio v) (VOL_harmonic v) (TF v) (TCTOPL v)
    (TCTOP v) (pulsefraction v) (harmonic v) (readHarmonicRatio v)
    (readVOL v) (readPulseFraction v) (readTF v) (LFO v) (LFOvalue v) t
    (time2 v) (time3 v) (count v) (count2 v).

(** ** Constants of the sketch *)

(** Clock of TCC2: the 48 MHz DFLL divided by 4. *)
Definition GCLK8_Hz : Z := 12000000.
(** [TCC1->PER.reg = 499]: the carrier's TOP. *)
Definition carrierTop : Z := 499.
Definition noisefilter : Z := 20.
(** Full scale of [analogRead] at its default 10-bit resolution. *)
Definition ADCmax : Z := 1023.

(** ** Frequency and duty conversion *)

(** [(int)( TCTOP * pulsefraction )]: the int is converted to float, the
    product is a float, the cast drops its fraction. *)
Definition compare_ticks (top : Z) (pf : spec_float) : option Z :=
  int_of_float (f32_mul (f32_of_int top) pf).

(** The static initialiser [12000000L / (2 * TF) - 1]. *)
Definition TCTOPL_init (tf : Z) : option Z :=
  let d := to_int32 (2 * tf) in
  if d =? 0 then None else Some (to_int32 (Z.quot GCLK8_Hz d - 1)).

(** [UpdateTF(uint16_t newTF)]. *)
Definition UpdateTF (newTF : Z) (s : state) : option state :=
  if newTF =? 0 then None else
  let TCTOPL' := to_int32 (Z.quot GCLK8_Hz newTF - 1) in
  let TCTOP' := to_uint16 TCTOPL' in
  let hw1 := store TCC2_PER TCTOP' (hw s) in
  cc <- compare_ticks TCTOP' (pulsefraction (g s)) ;;
  Some (mkState (set_TCTOP TCTOPL' TCTOP' (g s)) (store TCC2_CC0 cc hw1)).

(** ** Parameter derivations of [loop] *)

(** [if (abs(new - old) > noisefilter) old = new;] *)
Definition deadband (old new : Z) : Z :=
  if noisefilter <? c_abs (to_int32 (new - old)) then new else old.

(** [x / 1023.0] for an int [x]. *)
Definition adc_fraction (x : Z) : spec_float :=
  f64_div (f64_of_int x) (f64_of_int 1023).

(** [(int)( 600000 * (float)(readPulseFraction / 1023.0) )] *)
Definition LFOtime_of (rpf : Z) : option Z :=
  int_of_float (f32_mul (f32_of_int 600000) (f32_of_f64 (adc_fraction rpf))).

(** [if (LFO) LFOvalue = 1.0; else LFOvalue = 0.5;] *)
Definition LFOvalue_of (lfo : bool) : spec_float :=
  f32_of_f64 (if lfo then f64_lit 1 1 else f64_lit 1 2).

(** [(readHarmonicRatio/1023.0) * (count2 / 4.0)], stored in a float. *)
Definition harmonic_ratio_of (rhr c2 : Z) : spec_float :=
  f32_of_f64 (f64_mul (adc_fraction rhr) (f64_div (f64_of_int c2) (f64_of_int 4))).

(** [(int)((float)(readVOL/1023.0) * (499.0 - (i/2 - 1)))] *)
Definition VOL_of (rvol i : Z) : option Z :=
  int_of_float
    (f64_mul (f64_of_f32 (f32_of_f64 (adc_fraction rvol)))
             (f64_sub (f64_of_int 499) (f64_of_int (to_int32 (Z.quot i 2 - 1))))).

(** [(int)( VOL * (float)harmonic_ratio )] *)
Definition VOL_harmonic_of (vol : Z) (hr : spec_float) : option Z :=
  int_of_float (f32_mul (f32_of_int vol) hr).

(** [(readPulseFraction/1023.0) * LFOvalue], stored in a float. *)
Definition pulsefraction_of (rpf : Z) (lfov : spec_float) : spec_float :=
  f32_of_f64 (f64_mul (adc_fraction rpf) (f64_of_f32 lfov)).

(** ** [loop]: one pass of the body of [for (i = 0; i < 1000; i++)] *)

(** What one pass reads from outside: the clock and the four channels. *)
Record inputs := mkInputs {
  micros : Z;
  A3 : Z;
  A4 : Z;
  A2 : Z;
  A0 : Z
}.

Definition loop_body (i : Z) (inp : inputs) (s : state) : option state :=
  let v := g s in
  let time2' := to_int32 (micros inp) in
  let time3' := to_int32 (time2' - time1 v) in
  LFOtime <- LFOtime_of (readPulseFraction v) ;;
  let fire := LFOtime <=? time3' in
  let LFO' := if fire then negb (LFO v) else LFO v in
  let time1' := if fire then time2' else time1 v in
  let count2' :=
    if fire
    then (let c := to_int32 (count2 v + 1) in if c =? 5 then 0 else c)
    else count2 v in
  let LFOvalue' := LFOvalue_of LFO' in
  let readHarmonicRatio' := deadband (readHarmonicRatio v) (A3 inp) in
  let readVOL' := deadband (readVOL v) (A4 inp) in
  let readPulseFraction' := deadband (readPulseFraction v) (A2 inp) in
  let readTF' := deadband (readTF v) (A0 inp) in
  let harmonic_ratio' := harmonic_ratio_of readHarmonicRatio' count2' in
  VOL' <- VOL_of readVOL' i ;;
  VOL_harmonic' <- VOL_harmonic_of VOL' harmonic_ratio' ;;
  let TF' := to_int32 (to_int32 (readTF' + to_int32 (120 * count v)) + to_int32 (i * 6)) in
  let pulsefraction' := pulsefraction_of readPulseFraction' LFOvalue' in
  UpdateTF (to_uint16 TF')
    (mkState
       (mkGlobals VOL' harmonic_ratio' VOL_harmonic' TF' (TCTOPL v) (TCTOP v)
          pulsefraction' (harmonic v) readHarmonicRatio' readVOL'
          readPulseFraction' readTF' LFO' LFOvalue' time1' time2' time3'
          (count v) count2')
       (hw s)).

(** Consecutive passes [i, i+1, ...] over the given inputs. *)
Fixpoint loop_from (i : Z) (inps : list inputs) (s : state) : option state :=
  match inps with
  | [] => Some s
  | inp :: rest => s' <- loop_body i inp s ;; loop_from (i + 1) rest s'
  end.

(** ** Interrupt handlers of TCC2 *)

Definition clear_OVF (p : periph) : periph :=
  mkPeriph (regs p) false (INTFLAG_MC0 p) (stores p).
Definition clear_MC0 (p : periph) : periph :=
  mkPeriph (regs p) (INTFLAG_OVF p) false (stores p).
Definition raise_OVF (p : periph) : periph :=
  mkPeriph (regs p) true (INTFLAG_MC0 p) (stores p).
Definition raise_MC0 (p : periph) : periph :=
  mkPeriph (regs p) (INTFLAG_OVF p) true (stores p).

Definition TCC2_0_Handler (s : state) : state :=
  if INTFLAG_OVF (hw s) then
    let p := clear_OVF (hw s) in
    if harmonic (g s)
    then mkState (set_harmonic (negb (harmonic (g s))) (g s))
                 (store TCC1_CC0 (VOL_harmonic (g s)) p)
    else mkState (set_harmonic (negb (harmonic (g s))) (g s))
                 (store TCC1_CC0 (VOL (g s)) p)
  else s.

Definition TCC2_1_Handler (s : state) : state :=
  if INTFLAG_MC0 (hw s)
  then mkState (g s) (store TCC1_CC0 0 (clear_MC0 (hw s)))
  else s.

(** ** Start-up: the static initialisers and [setup] *)

Definition initial_globals : option globals :=
  let VOL0 := 499 in
  let harmonic_ratio0 := f32_of_f64 (f64_lit 15 100) in
  VOL_harmonic0 <- int_of_float (f32_mul (f32_of_int VOL0) harmonic_ratio0) ;;
  let TF0 := 440 in
  TCTOPL0 <- TCTOPL_init TF0 ;;
  let TCTOP0 := to_uint16 TCTOPL0 in
  Some (mkGlobals VOL0 harmonic_ratio0 VOL_harmonic0 TF0 TCTOPL0 TCTOP0
          (f32_of_f64 (f64_lit 6 10)) true 1 1 1 1 true
          (f32_of_f64 (f64_lit 1 1)) 1 1 1 0 0).

(** A sample of the peripherals before [setup] runs. *)
Definition reset_periph : periph := mkPeriph (fun _ => 0) false false [].

(** [setup()], as far as the timers' period and compare registers and
    the globals go.  [boot] is the state of the peripherals when it
    starts and [now] is what [micros()] returns at its end.  The line
    [while (TCC1->SYNCBUSY.bit.WAVE)] has no semicolon, so the store
    [TCC1->PER.reg = 499] that follows is the body of that loop: it
    runs once each time the busy bit reads 1, [wave_busy] times. *)
Definition setup (boot : periph) (wave_busy : nat) (now : Z) : option state :=
  v <- initial_globals ;;
  let p1 := Nat.iter wave_busy (store TCC1_PER 499) boot in
  let p2 := store TCC1_CC0 (VOL v) p1 in
  let p3 := store TCC2_PER (TCTOP v) p2 in
  cc <- uint32_of_float (f32_mul (f32_of_int (TCTOP v)) (pulsefraction v)) ;;
  let p4 := store TCC2_CC0 cc p3 in
  Some (mkState (set_time1 (to_int32 now) v) p4).

(** ** Timer events and polling passes, interleaved *)

(** The hardware sets the flag and enters the handler. *)
Definition overflow_event (s : state) : state :=
  TCC2_0_Handler (mkState (g s) (raise_OVF (hw s))).
Definition compare_event (s : state) : state :=
  TCC2_1_Handler (mkState (g s) (raise_MC0 (hw s))).

Inductive event :=
| Overflow
| Compare
| Pass (i : Z) (inp : inputs).

Definition step (e : event) (s : state) : option state :=
  match e with
  | Overflow => Some (overflow_event s)
  | Compare => Some (compare_event s)
  | Pass i inp => loop_body i inp s
  end.

Fixpoint run (es : list event) (s : state) : option state :=
  match es with
  | [] => Some s
  | e :: rest => s' <- step e s ;; run rest s'
  end.

Definition is_overflow (e : event) : bool :=
  match e with Overflow => true | _ => false end.

Definition overflows (es : list event) : nat := length (filter is_overflow es).

Definition is_timer_event (e : event) : bool :=
  match e with Pass _ _ => false | _ => true end.

Definition timer_events (es : list event) : nat :=
  length (filter is_timer_event es).

(** The number of stores to the carrier's compare register in a log. *)
Definition duty_stores (l : list (reg * Z)) : nat :=
  length (filter (fun w => reg_eqb (fst w) TCC1_CC0) l).

(** The two phases of the undertone; the flag [harmonic] says that the
    next overflow starts a harmonic half-cycle. *)
Inductive phase := Fundamental | Harmonic.

Definition phase_of (s : state) : phase :=
  if harmonic (g s) then Fundamental else Harmonic.

(** ** The specification's formulas, as written there *)

Definition spec_periodTicks (R toneFrequency : Z) : Z :=
  R / (2 * toneFrequency) - 1.

(** Rounding to the nearest integer, halves upward. *)
Definition Qround (q : Q) : Z := Qfloor (q + (1 # 2)).

Definition spec_compareTicks (periodTicks : Z) (pulseFraction : Q) : Z :=
  Qround (inject_Z periodTicks * pulseFraction).

Definition spec_harmonicVolume (volume : Z) (harmonicRatio : Q) : Z :=
  Qround (inject_Z volume * harmonicRatio).

(** The bounds stated in the comment on [TF]: "anything from 183 to 6
    million". *)
Definition Fmin : Z := 183.
Definition Fmax : Z := 6000000.

Definition clamp (lo hi x : Z) : Z := Z.max lo (Z.min hi x).

(** ** Well-formed states and inputs *)

Definition adc (x : Z) : Prop := 0 <= x <= ADCmax.

(** The filtered readings are ADC values, [count2] cycles through 0..4
    and [count] keeps its initial 0 (nothing assigns it). *)
Record wf (v : globals) : Prop := mkWf {
  wf_readHarmonicRatio : adc (readHarmonicRatio v);
  wf_readVOL : adc (readVOL v);
  wf_readPulseFraction : adc (readPulseFraction v);
  wf_readTF : adc (readTF v);
  wf_count2 : 0 <= count2 v <= 4;
  wf_count : count v = 0
}.

Record wf_inputs (inp : inputs) : Prop := mkWfInputs {
  wf_micros : 0 <= micros inp < 2 ^ 32;
  wf_A3 : adc (A3 inp);
  wf_A4 : adc (A4 inp);
  wf_A2 : adc (A2 inp);
  wf_A0 : adc (A0 inp)
}.

(** A fraction: zero or a positive float not above one. *)
Definition frac01 (x : spec_float) : bool :=
  match x with
  | S754_zero _ => true
  | S754_finite false m (Zneg p) => Zpos m <=? 2 ^ Zpos p
  | _ => false
  end.

(** [y] is [x] with its exponent lowered by one, far above the
    subnormal range. *)
Definition halved (x y : spec_float) : bool :=
  match x, y with
  | S754_zero _, S754_zero _ => true
  | S754_finite false m e, S754_finite false m' e' =>
      (Zpos m =? Zpos m') && (e' =? e - 1) && (-100 <=? e)
  | _, _ => false
  end.

(** ** Vocabulary for the rounding lemmas *)

(** After [k] halvings of the exact record of [M]: the quotient is kept,
    and a set round or sticky bit means that something was shifted out. *)
Definition shifted (M k : Z) (rec : shr_record) : Prop :=
  0 <= k /\ shr_m rec = M / 2 ^ k /\
  (shr_r rec || shr_s rec = true -> M mod 2 ^ k <> 0).

(** What [binary_round_aux] returns for a final significand and exponent. *)
Definition result_of (prec emax : Z) (s : bool) (m e : Z) : spec_float :=
  match m with
  | Z0 => S754_zero s
  | Zpos p => if e <=? emax - prec then S754_finite s p e else S754_infinity s
  | Zneg _ => S754_nan
  end.

(** [x] keeps its significand and loses one from its exponent. *)
Definition half_of (x : spec_float) : spec_float :=
  match x with
  | S754_finite s m e => S754_finite s m (e - 1)
  | _ => x
  end.

(** Enumeration of [z, z+1, ..., z+n-1], for exhaustive checks over the
    ADC range. *)
Fixpoint upto (n : nat) (z : Z) : list Z :=
  match n with
  | O => []
  | S k => z :: upto k (z + 1)
  end.

Definition adc_values : list Z := upto 1024 0.

(** [loop()]: the thousand passes [i = 0 .. 999]; [env i] is what pass
    [i] reads. *)
Definition loop (env : Z -> inputs) (s : state) : option state :=
  loop_from 0 (map env (upto 1000 0)) s.

(** The state [setup] leaves when the busy bit was seen once and
    [micros()] is 1000 at its end; see [setup_1000]. *)
Definition after_setup : state :=
  mkState
    (mkGlobals 499 (f32_of_f64 (f64_lit 15 100)) 74 440 13635 13635
       (f32_of_f64 (f64_lit 6 10)) true 1 1 1 1 true
       (f32_of_f64 (f64_lit 1 1)) 1000 1 1 0 0)
    (store TCC2_CC0 8181
       (store TCC2_PER 13635
          (store TCC1_CC0 499 (store TCC1_PER 499 reset_periph)))).

(** ** The ESP32 variant ([ttPWMvDACwave], built with [DACwave])

    One timer only: its alarm handler alternates the DAC between [amp]
    and 0. *)
Module ESP32.

Record timer_state := mkTimerState {
  up : bool;
  amp : Z;
  DAC1 : Z
}.

(** [dacWrite] takes a [uint8_t]. *)
Definition dacWrite (v : Z) : Z := v mod 2 ^ 8.

Definition onTimerSW (t : timer_state) : timer_state :=
  mkTimerState (negb (up t)) (amp t)
    (if up t then dacWrite (amp t) else dacWrite 0).

End ESP32.

(** Decidable equality of floating values, and definedness, for the
    exhaustive checks. *)
Definition spec_float_eqb (x y : spec_float) : bool :=
  match x, y with
  | S754_zero s, S754_zero s' => Bool.eqb s s'
  | S754_infinity s, S754_infinity s' => Bool.eqb s s'
  | S754_nan, S754_nan => true
  | S754_finite s m e, S754_finite s' m' e' =>
      Bool.eqb s s' && (Zpos m =? Zpos m') && (e =? e')
  | _, _ => false
  end.

Definition is_some {A} (o : option A) : bool :=
  match o with Some _ => true | None => false end.

(** ** The basic sketch ([sketch_SAMD51_PWM_HelloWorld_twotimer])

    One TCC for the carrier and the 16-bit counter TC0 for the tone:
    each match of TC0 flips the carrier's compare register between
    [VOL] and 0.  Its [loop] is empty. *)
Module Basic.

Record sketch := mkSketch {
  VOL : Z;
  TF : Z;
  TCTOPL : Z;
  TCTOP : Z;
  TCC1_PER_reg : Z;
  TCC1_CC0_reg : Z;
  TC0_CC0_reg : Z;
  INTFLAG_MC0 : bool
}.

(** [TC0_Handler]: on a match, test the register itself. *)
Definition TC0_Handler (s : sketch) : sketch :=
  if INTFLAG_MC0 s then
    if TCC1_CC0_reg s =? 0
    then mkSketch (VOL s) (TF s) (TCTOPL s) (TCTOP s) (TCC1_PER_reg s)
           (to_uint32 (VOL s)) (TC0_CC0_reg s) false
    else mkSketch (VOL s) (TF s) (TCTOPL s) (TCTOP s) (TCC1_PER_reg s)
           0 (TC0_CC0_reg s) false
  else s.

(** The hardware sets the flag and enters the handler. *)
Definition match_event (s : sketch) : sketch :=
  TC0_Handler
    (mkSketch (VOL s) (TF s) (TCTOPL s) (TCTOP s) (TCC1_PER_reg s)
       (TCC1_CC0_reg s) (TC0_CC0_reg s) true).

(** The static initialisers and [setup()].  As in the other sketch the
    store to TCC1->PER is the body of the semicolon-less [while];
    [boot_PER] is the register's content before.  TC0's compare
    register is 16 bits wide. *)
Definition setup (boot_PER : Z) (wave_busy : nat) : option sketch :=
  l <- TCTOPL_init 440 ;;
  let top := to_uint16 l in
  Some (mkSketch 499 440 l top
          (match wave_busy with O => boot_PER | S _ => to_uint32 499 end)
          (to_uint32 499) (to_uint16 top) false).

End Basic.

(** ** The ESP32 sketch ([ttPWMvDACwave]): pitch and amplitude sweep

    A second timer sets [update_now] a thousand times a second; [loop]
    then raises the pitch by one and lowers the amplitude by one.  The
    alarm handler [onTimerSW] is [ESP32.onTimerSW] above. *)
Module ESP32Loop.

Definition amp_max : Z := 255.
Definition pitch_initial : Z := 440.
Definition timerSWprescaler : Z := 2.
Definition timerSize : Z := 80000000.
Definition timerSizeprescaler : Z :=
  to_int32 (Z.quot timerSize timerSWprescaler).

(** [alarmSW] is the alarm value of the tone timer, a [uint64_t]. *)
Record sketch := mkSketch {
  tmr : ESP32.timer_state;
  pitch : Z;
  timerSW_top : Z;
  alarmSW : Z;
  update_now : bool
}.

(** [update_pitch(int new_pitch)] *)
Definition update_pitch (new_pitch : Z) (s : sketch) : option sketch :=
  let d := to_int32 (new_pitch * 2) in
  if d =? 0 then None else
  let top := to_int32 (Z.quot timerSizeprescaler d) in
  Some (mkSketch (tmr s) (pitch s) top (top mod 2 ^ 64) (update_now s)).

Definition onTimerSU (s : sketch) : sketch :=
  mkSketch (tmr s) (pitch s) (timerSW_top s) (alarmSW s) true.

Definition onTimerSW (s : sketch) : sketch :=
  mkSketch (ESP32.onTimerSW (tmr s)) (pitch s) (timerSW_top s) (alarmSW s)
    (update_now s).

Definition loop (s : sketch) : option sketch :=
  if update_now s then
    let pitch' :=
      if pitch s <? 2000 then to_int32 (pitch s + 1) else pitch_initial in
    s1 <- update_pitch pitch'
            (mkSketch (tmr s) pitch' (timerSW_top s) (alarmSW s)
               (update_now s)) ;;
    let a := ESP32.amp (tmr s1) in
    let amp' := if a <? 5 then amp_max else to_int32 (a - 1) in
    Some (mkSketch
            (ESP32.mkTimerState (ESP32.up (tmr s1)) amp' (ESP32.DAC1 (tmr s1)))
            (pitch s1) (timerSW_top s1) (alarmSW s1) false)
  else Some s.

(** One update: the update timer fires, then [loop] runs. *)
Definition tick (s : sketch) : option sketch := loop (onTimerSU s).

Fixpoint ticks (n : nat) (s : sketch) : option sketch :=
  match n with
  | O => Some s
  | S k => s' <- tick s ;; ticks k s'
  end.

Inductive event := Alarm | Update.

Definition step (e : event) (s : sketch) : option sketch :=
  match e with
  | Alarm => Some (onTimerSW s)
  | Update => tick s
  end.

Fixpoint run (es : list event) (s : sketch) : option sketch :=
  match es with
  | [] => Some s
  | e :: rest => s' <- step e s ;; run rest s'
  end.

Definition alarms (es : list event) : nat :=
  length (filter (fun e => match e with Alarm => true | Update => false end) es).

(** The state the static initialisers give: [amp] is
    [(int) amp_max * 0.5], [timerSW_top] is
    [(int) timerSizeprescaler / (pitch * 2)]; no alarm is set yet. *)
Definition initial : option sketch :=
  amp0 <- int_of_float (f64_mul (f64_of_int amp_max) (f64_lit 1 2)) ;;
  let d := to_int32 (pitch_initial * 2) in
  if d =? 0 then None else
  Some (mkSketch (ESP32.mkTimerState true amp0 0) pitch_initial
          (to_int32 (Z.quot timerSizeprescaler d)) 0 false).

(** The sweep keeps the pitch in 440..2000 and the amplitude in
    4..255. *)
Definition in_sweep (s : sketch) : Prop :=
  440 <= pitch s <= 2000 /\ 4 <= ESP32.amp (tmr s) <= 255.

End ESP32Loop.

(** * Facts about IEEE-754 rounding

    [SpecFloat] rounds by shifting the significand right while
    recording a round and a sticky bit.  The lemmas below say what the
    shifts compute, for any format. *)

Section Rounding.

Variables prec emax : Z.
Hypothesis prec_ge : 2 <= prec.
Hypothesis emax_ge : prec <= emax.

Lemma iter_pos_inv {A} (f : A -> A) (P : Z -> A -> Prop) :
  (forall k x, P k x -> P (k + 1) (f x)) ->
  forall p k x, P k x -> P (k + Zpos p) (iter_pos f p x).
Proof.
  intros Hstep. induction p as [p IH | p IH |]; intros k x Hx; simpl.
  - replace (k + Z.pos p~1) with (k + 1 + Z.pos p + Z.pos p) by lia.
    apply IH, IH, Hstep, Hx.
  - replace (k + Z.pos p~0) with (k + Z.pos p + Z.pos p) by lia.
    apply IH, IH, Hx.
  - apply Hstep, Hx.
Qed.

Lemma shr_1_m rec : 0 <= shr_m rec -> shr_m (shr_1 rec) = shr_m rec / 2.
Proof.
  destruct rec as [m r s]. cbn [shr_m]. intros Hm.
  destruct m as [| [p | p |] | p]; cbn [shr_1 shr_m].
  - reflexivity.
  - apply Z.div_unique with (r := 1); lia.
  - apply Z.div_unique with (r := 0); lia.
  - reflexivity.
  - lia.
Qed.

Lemma shr_1_r rec : 0 <= shr_m rec -> shr_r (shr_1 rec) = Z.odd (shr_m rec).
Proof.
  destruct rec as [m r s]. cbn [shr_m]. intros Hm.
  destruct m as [| [p | p |] | p]; cbn [shr_1 shr_r]; try reflexivity; lia.
Qed.

Lemma shr_1_s rec : shr_s (shr_1 rec) = shr_r rec || shr_s rec.
Proof.
  destruct rec as [m r s].
  destruct m as [| [p | p |] | [p | p |]]; reflexivity.
Qed.

Lemma shifted_0 M : shifted M 0 (Build_shr_record M false false).
Proof.
  unfold shifted; cbn [shr_m shr_r shr_s orb].
  split; [lia | split; [now rewrite Z.div_1_r | discriminate]].
Qed.

Lemma shifted_step M k rec :
  0 <= M -> shifted M k rec -> shifted M (k + 1) (shr_1 rec).
Proof.
  intros HM (Hk & Hm & Hrs).
  assert (H2k : 0 < 2 ^ k) by (apply Z.pow_pos_nonneg; lia).
  assert (Hm0 : 0 <= shr_m rec) by (rewrite Hm; apply Z.div_pos; lia).
  assert (Hpow : 2 ^ (k + 1) = 2 ^ k * 2)
    by (rewrite Z.pow_add_r by lia; reflexivity).
  repeat split.
  - lia.
  - rewrite shr_1_m by assumption.
    rewrite Hm, Hpow, Z.div_div by lia. reflexivity.
  - rewrite shr_1_r, shr_1_s by assumption. intros Hor Hmod.
    apply orb_true_iff in Hor. rewrite Hpow in Hmod.
    assert (Hdiv : M = 2 * (M / (2 ^ k * 2)) * 2 ^ k).
    { pose proof (Z.div_mod M (2 ^ k * 2)). lia. }
    destruct Hor as [Hodd | Hrs'].
    + rewrite Hm in Hodd.
      assert (Hq : M / 2 ^ k = 2 * (M / (2 ^ k * 2))).
      { rewrite Hdiv at 1. apply Z.div_mul. lia. }
      rewrite Hq, Z.odd_mul in Hodd. discriminate.
    + apply Hrs; [exact Hrs'|]. rewrite Hdiv. apply Z.mod_mul. lia.
Qed.

Lemma shifted_iter M p k rec :
  0 <= M -> shifted M k rec -> shifted M (k + Zpos p) (iter_pos shr_1 p rec).
Proof.
  intros HM. revert k rec.
  apply (iter_pos_inv shr_1 (shifted M)). intros; now apply shifted_step.
Qed.

(** [shr] by [n] places (none when [n <= 0]). *)
Lemma shr_shifted M rec e n :
  0 <= M -> shifted M 0 rec ->
  shifted M (Z.max 0 n) (fst (shr rec e n)) /\
  snd (shr rec e n) = e + Z.max 0 n.
Proof.
  intros HM H. destruct n as [| p | p]; cbn [shr fst snd].
  - split; [exact H | lia].
  - split; [| lia]. replace (Z.max 0 (Z.pos p)) with (0 + Z.pos p) by lia.
    now apply shifted_iter.
  - split; [exact H | lia].
Qed.

Lemma round_nearest_even_bounds rec :
  let m := round_nearest_even (shr_m rec) (loc_of_shr_record rec) in
  shr_m rec <= m <= shr_m rec + 1 /\
  (m = shr_m rec + 1 -> shr_r rec || shr_s rec = true).
Proof.
  destruct rec as [m [|] [|]]; cbn; try destruct (Z.even m);
    split; try lia; auto.
Qed.

(** *** Number of binary digits *)

Lemma digits2_pos_bounds p :
  2 ^ (Zpos (digits2_pos p) - 1) <= Zpos p < 2 ^ Zpos (digits2_pos p).
Proof.
  induction p as [p IH | p IH |]; cbn [digits2_pos].
  - rewrite Pos2Z.inj_succ.
    replace (Z.succ (Z.pos (digits2_pos p)) - 1)
      with (Z.pos (digits2_pos p) - 1 + 1) by lia.
    rewrite Z.pow_succ_r by lia.
    assert (0 <= Z.pos (digits2_pos p) - 1) by lia.
    rewrite Z.pow_add_r by lia. lia.
  - rewrite Pos2Z.inj_succ.
    replace (Z.succ (Z.pos (digits2_pos p)) - 1)
      with (Z.pos (digits2_pos p) - 1 + 1) by lia.
    rewrite Z.pow_succ_r by lia.
    assert (0 <= Z.pos (digits2_pos p) - 1) by lia.
    rewrite Z.pow_add_r by lia. lia.
  - cbn. lia.
Qed.

Lemma Zdigits2_le m d : 0 <= m -> 0 <= d -> m < 2 ^ d -> Zdigits2 m <= d.
Proof.
  intros Hm Hd Hlt. destruct m as [| p | p]; cbn [Zdigits2]; try lia.
  pose proof (digits2_pos_bounds p) as [Hlo _].
  destruct (Z_le_gt_dec (Z.pos (digits2_pos p)) d) as [|Hgt]; [assumption|].
  assert (2 ^ d <= 2 ^ (Z.pos (digits2_pos p) - 1))
    by (apply Z.pow_le_mono_r; lia).
  lia.
Qed.

Lemma Zdigits2_unique m d :
  2 ^ (d - 1) <= m < 2 ^ d -> 0 < d -> Zdigits2 m = d.
Proof.
  intros [Hlo Hhi] Hd.
  assert (0 < m) by (pose proof (Z.pow_pos_nonneg 2 (d - 1)); lia).
  destruct m as [| p | p]; try lia. cbn [Zdigits2].
  pose proof (digits2_pos_bounds p) as [Hlo' Hhi'].
  destruct (Z.lt_trichotomy (Z.pos (digits2_pos p)) d)
    as [Hlt | [Heq | Hgt]]; [| assumption |].
  - assert (2 ^ Z.pos (digits2_pos p) <= 2 ^ (d - 1))
      by (apply Z.pow_le_mono_r; lia). lia.
  - assert (2 ^ d <= 2 ^ (Z.pos (digits2_pos p) - 1))
      by (apply Z.pow_le_mono_r; lia). lia.
Qed.

(** *** [binary_round_aux] on an exact significand *)

(** Two shifts happen: by [k1] to reach the canonical exponent, and by
    [k2] should rounding have carried into a new digit.  Rounding moves
    the shifted significand up by at most one, and only when bits were
    lost. *)
Lemma binary_round_aux_exact s M E :
  0 <= M ->
  exists k1 m' k2,
    k1 = Z.max 0 (fexp prec emax (Zdigits2 M + E) - E) /\
    M / 2 ^ k1 <= m' <= M / 2 ^ k1 + 1 /\
    (m' = M / 2 ^ k1 + 1 -> M mod 2 ^ k1 <> 0) /\
    k2 = Z.max 0 (fexp prec emax (Zdigits2 m' + (E + k1)) - (E + k1)) /\
    binary_round_aux prec emax s M E loc_Exact
    = result_of prec emax s (m' / 2 ^ k2) (E + k1 + k2).
Proof.
  intros HM. unfold binary_round_aux, shr_fexp.
  cbn [shr_record_of_loc].
  set (n1 := fexp prec emax (Zdigits2 M + E) - E).
  destruct (shr_shifted M (Build_shr_record M false false) E n1 HM
              (shifted_0 M)) as [(Hk1 & Hm1 & Hrs1) He1].
  destruct (shr (Build_shr_record M false false) E n1) as [rec1 e1].
  cbn [fst snd] in *.
  pose proof (round_nearest_even_bounds rec1) as Hrnd. cbv zeta in Hrnd.
  set (m' := round_nearest_even (shr_m rec1) (loc_of_shr_record rec1)) in *.
  destruct Hrnd as [Hb Hup].
  assert (H2k : 0 < 2 ^ Z.max 0 n1) by (apply Z.pow_pos_nonneg; lia).
  assert (Hq0 : 0 <= M / 2 ^ Z.max 0 n1) by (apply Z.div_pos; lia).
  assert (Hm'0 : 0 <= m') by lia.
  set (n2 := fexp prec emax (Zdigits2 m' + e1) - e1).
  destruct (shr_shifted m' (Build_shr_record m' false false) e1 n2 Hm'0
              (shifted_0 m')) as [(Hk2 & Hm2 & _) He2].
  destruct (shr (Build_shr_record m' false false) e1 n2) as [rec2 e2].
  cbn [fst snd] in *.
  exists (Z.max 0 n1), m', (Z.max 0 n2).
  split; [reflexivity|].
  split; [lia|].
  split; [intros Heq; apply Hrs1, Hup; lia|].
  split; [unfold n2; subst e1; reflexivity|].
  rewrite Hm2. subst e2 e1. unfold result_of. reflexivity.
Qed.

(** A significand that already sits at its canonical exponent is kept. *)
Lemma binary_round_aux_canonical s M E :
  0 <= M -> fexp prec emax (Zdigits2 M + E) <= E ->
  binary_round_aux prec emax s M E loc_Exact = result_of prec emax s M E.
Proof.
  intros HM Hcan.
  destruct (binary_round_aux_exact s M E HM)
    as (k1 & m' & k2 & Hk1 & Hm' & Hup & Hk2 & ->).
  assert (Hz1 : k1 = 0) by lia. clear Hk1. subst k1.
  rewrite Z.pow_0_r, Z.div_1_r in *.
  assert (m' = M).
  { destruct (Z.eq_dec m' (M + 1)) as [Heq | Hne]; [| lia].
    exfalso. apply (Hup Heq). apply Z.mod_1_r. }
  subst m'. rewrite Z.add_0_r in *.
  assert (Hz2 : k2 = 0) by lia. clear Hk2. subst k2.
  now rewrite Z.pow_0_r, Z.div_1_r, Z.add_0_r.
Qed.

Lemma trunc_result_of m e :
  0 <= m -> e <= 0 ->
  trunc (result_of prec emax false m e) = Some (m / 2 ^ (- e)).
Proof.
  intros Hm He. destruct m as [| p | p]; cbn [result_of]; try lia.
  - cbn [trunc]. now rewrite Z.div_0_l by (apply Z.pow_nonzero; lia).
  - destruct (Z.leb_spec e (emax - prec)); [| lia].
    cbn [trunc cond_Zopp]. rewrite Z.shiftl_div_pow2 by lia. reflexivity.
Qed.

Lemma Qfloor_result_of m e :
  0 <= m -> e <= 0 ->
  Qfloor (F2Q (result_of prec emax false m e)) = m / 2 ^ (- e).
Proof.
  intros Hm He. destruct m as [| p | p]; cbn [result_of]; try lia.
  - change (Qfloor (F2Q (S754_zero false))) with 0.
    symmetry. apply Z.div_0_l. apply Z.pow_nonzero; lia.
  - destruct (Z.leb_spec e (emax - prec)); [| lia].
    destruct e as [| q | q]; try lia; cbn [F2Q cond_Zopp].
    + unfold Qfloor, inject_Z. cbn [Z.opp].
      now rewrite Z.pow_0_r, Z.mul_1_r.
    + unfold Qfloor. now rewrite Pos2Z.inj_pow.
Qed.

(** *** Integer part of a rounded product *)

(** A significand [M] at exponent [E <= 0] whose value [M * 2^E] does
    not exceed a representable integer [B] rounds to a number whose
    integer part lies between the integer part of the exact value and
    [B]. *)
Lemma binary_round_aux_trunc M E B :
  0 <= M -> E <= 0 -> 0 <= B < 2 ^ prec -> M <= B * 2 ^ (- E) ->
  exists c,
    trunc (binary_round_aux prec emax false M E loc_Exact) = Some c /\
    Qfloor (F2Q (binary_round_aux prec emax false M E loc_Exact)) = c /\
    M / 2 ^ (- E) <= c <= B.
Proof.
  intros HM HE HB HMB.
  destruct (binary_round_aux_exact false M E HM)
    as (k1 & m' & k2 & Hk1 & Hm' & Hup & Hk2 & ->).
  assert (Hk1' : 0 <= k1) by lia.
  assert (P1 : 0 < 2 ^ k1) by (apply Z.pow_pos_nonneg; lia).
  assert (PE : 0 < 2 ^ (- E)) by (apply Z.pow_pos_nonneg; lia).
  assert (HdM : Zdigits2 M <= prec - E).
  { apply Zdigits2_le; try lia.
    replace (prec - E) with (prec + - E) by lia.
    rewrite Z.pow_add_r by lia. nia. }
  assert (He1 : E + k1 <= 0).
  { subst k1. unfold fexp, emin. lia. }
  set (e1 := E + k1) in *.
  assert (Pe1 : 0 < 2 ^ (- e1)) by (apply Z.pow_pos_nonneg; lia).
  assert (HpowE : 2 ^ (- E) = 2 ^ (- e1) * 2 ^ k1).
  { rewrite <- Z.pow_add_r by lia. f_equal. unfold e1. lia. }
  assert (Hm'B : m' <= B * 2 ^ (- e1)).
  { assert (Hq : M / 2 ^ k1 <= B * 2 ^ (- e1)).
    { apply Z.div_le_upper_bound; [lia|]. rewrite HpowE in HMB. lia. }
    destruct (Z.eq_dec m' (M / 2 ^ k1 + 1)) as [Heq | Hne]; [| lia].
    specialize (Hup Heq).
    assert (M <> B * 2 ^ (- e1) * 2 ^ k1).
    { intros ->. apply Hup. apply Z.mod_mul. lia. }
    assert (M / 2 ^ k1 < B * 2 ^ (- e1)).
    { apply Z.div_lt_upper_bound; [lia|]. rewrite HpowE in HMB. lia. }
    lia. }
  assert (Hm'0 : 0 <= m').
  { assert (0 <= M / 2 ^ k1) by (apply Z.div_pos; lia). lia. }
  assert (Hdm' : Zdigits2 m' <= prec - e1).
  { apply Zdigits2_le; try lia.
    replace (prec - e1) with (prec + - e1) by lia.
    rewrite Z.pow_add_r by lia. nia. }
  assert (He2 : e1 + k2 <= 0).
  { subst k2. unfold fexp, emin. lia. }
  assert (Hk2' : 0 <= k2) by lia.
  assert (P2 : 0 < 2 ^ k2) by (apply Z.pow_pos_nonneg; lia).
  set (e2 := e1 + k2) in *.
  assert (Pe2 : 0 < 2 ^ (- e2)) by (apply Z.pow_pos_nonneg; lia).
  assert (Hpowe1 : 2 ^ (- e1) = 2 ^ k2 * 2 ^ (- e2)).
  { rewrite <- Z.pow_add_r by lia. f_equal. unfold e2. lia. }
  exists (m' / 2 ^ k2 / 2 ^ (- e2)). split; [| split].
  - apply trunc_result_of; [apply Z.div_pos; lia | lia].
  - apply Qfloor_result_of; [apply Z.div_pos; lia | lia].
  - rewrite Z.div_div by lia. rewrite <- Hpowe1. split.
    + rewrite HpowE. rewrite (Z.mul_comm (2 ^ (- e1))), <- Z.div_div by lia.
      apply Z.div_le_mono; lia.
    + apply Z.div_le_upper_bound; lia.
Qed.

Lemma iter_xO a d : Zpos (Pos.iter xO a d) = Zpos a * 2 ^ Zpos d.
Proof.
  induction d as [| d IH] using Pos.peano_ind.
  - cbn. lia.
  - rewrite Pos.iter_succ, Pos2Z.inj_xO, IH, Pos2Z.inj_succ,
      Z.pow_succ_r by lia. ring.
Qed.

(** Conversion of a small positive integer is exact. *)
Lemma binary_normalize_int A :
  0 < A < 2 ^ prec ->
  exists m e,
    binary_normalize prec emax A 0 false = S754_finite false m e /\
    - prec < e <= 0 /\ Zpos m = A * 2 ^ (- e).
Proof.
  intros [HA0 HA]. destruct A as [| a | a]; try lia.
  cbn [binary_normalize]. unfold binary_round.
  pose proof (digits2_pos_bounds a) as [Hlo Hhi].
  set (d := Z.pos (digits2_pos a)) in *.
  assert (Hd : d <= prec).
  { change d with (Zdigits2 (Zpos a)). apply Zdigits2_le; lia. }
  assert (Hfexp : fexp prec emax (d + 0) = d - prec).
  { unfold fexp, emin. lia. }
  rewrite Hfexp. unfold shl_align.
  destruct (d - prec - 0) as [| q | q] eqn:Hq; try lia.
  - rewrite binary_round_aux_canonical.
    + exists a, 0. unfold result_of.
      destruct (Z.leb_spec 0 (emax - prec)); [| lia].
      repeat split; try lia.
    + lia.
    + change (Zdigits2 (Z.pos a)) with d. rewrite Hfexp. lia.
  - assert (Hm : Z.pos (Pos.iter xO a q) = Z.pos a * 2 ^ (prec - d)).
    { rewrite iter_xO. do 2 f_equal. lia. }
    assert (Hdig : Zdigits2 (Z.pos (Pos.iter xO a q)) = prec).
    { apply Zdigits2_unique; [| lia]. rewrite Hm.
      assert (E1 : 2 ^ (prec - 1) = 2 ^ (d - 1) * 2 ^ (prec - d)).
      { rewrite <- Z.pow_add_r by lia. f_equal. lia. }
      assert (E2 : 2 ^ prec = 2 ^ d * 2 ^ (prec - d)).
      { rewrite <- Z.pow_add_r by lia. f_equal. lia. }
      assert (0 < 2 ^ (prec - d)) by (apply Z.pow_pos_nonneg; lia).
      rewrite E1, E2. split.
      - apply Z.mul_le_mono_nonneg_r; lia.
      - apply Z.mul_lt_mono_pos_r; lia. }
    rewrite binary_round_aux_canonical.
    + exists (Pos.iter xO a q), (d - prec). unfold result_of.
      destruct (Z.leb_spec (d - prec) (emax - prec)); [| lia].
      repeat split; try lia.
      rewrite Hm. do 2 f_equal. lia.
    + lia.
    + rewrite Hdig. unfold fexp, emin. lia.
Qed.

(** The integer part of [A * y], for a small integer [A] and a fraction
    [y = m / 2^p], computed in this format: at least the integer part
    of the exact product, at most any integer bound of it. *)
Lemma SFmul_int_frac A m p B :
  0 < A < 2 ^ prec -> 0 <= B < 2 ^ prec -> A * Zpos m <= B * 2 ^ Zpos p ->
  exists c,
    trunc (SFmul prec emax (binary_normalize prec emax A 0 false)
             (S754_finite false m (Zneg p))) = Some c /\
    Qfloor (F2Q (SFmul prec emax (binary_normalize prec emax A 0 false)
                   (S754_finite false m (Zneg p)))) = c /\
    A * Zpos m / 2 ^ Zpos p <= c <= B.
Proof.
  intros HA HB HAB.
  destruct (binary_normalize_int A HA) as (mx & ex & -> & [_ Hex] & Hmx).
  cbn [SFmul xorb].
  assert (Pex : 0 < 2 ^ (- ex)) by (apply Z.pow_pos_nonneg; lia).
  assert (Pp : 0 < 2 ^ Z.pos p) by (apply Z.pow_pos_nonneg; lia).
  assert (HE : - (ex + Z.neg p) = - ex + Z.pos p) by lia.
  assert (Hpow : 2 ^ (- (ex + Z.neg p)) = 2 ^ (- ex) * 2 ^ Z.pos p).
  { rewrite HE. apply Z.pow_add_r; lia. }
  destruct (binary_round_aux_trunc (Z.pos (mx * m)) (ex + Z.neg p) B)
    as (c & Hc & Hq & Hlo & Hhi); try lia.
  - rewrite Hpow, Pos2Z.inj_mul, Hmx. nia.
  - exists c. split; [exact Hc|]. split; [exact Hq|]. split; [| exact Hhi].
    rewrite Hpow, Pos2Z.inj_mul, Hmx in Hlo.
    replace (A * 2 ^ (- ex) * Z.pos m) with (2 ^ (- ex) * (A * Z.pos m))
      in Hlo by ring.
    rewrite Z.div_mul_cancel_l in Hlo by lia. exact Hlo.
Qed.

Lemma SFmul_comm x y : SFmul prec emax x y = SFmul prec emax y x.
Proof.
  destruct x as [sx | sx | | sx mx ex], y as [sy | sy | | sy my ey];
    cbn [SFmul]; try rewrite (xorb_comm sx sy); try reflexivity.
  now rewrite Pos.mul_comm, Z.add_comm.
Qed.

(** *** Halving an operand *)

Lemma shr_exponent rec e n d :
  shr rec (e + d) n = (fst (shr rec e n), snd (shr rec e n) + d).
Proof. destruct n; cbn [shr fst snd]; f_equal; lia. Qed.

Lemma shr_nonpos rec e n : n <= 0 -> shr rec e n = (rec, e).
Proof. destruct n; cbn [shr]; intros; try reflexivity; lia. Qed.

Lemma shr_exponent_ge rec e n : e <= snd (shr rec e n).
Proof. destruct n; cbn [shr snd]; lia. Qed.

(** Above the subnormal range, lowering the exponent by one shifts the
    significand exactly as before. *)
Lemma shr_fexp_half m e l :
  emin prec emax < e ->
  shr_fexp prec emax m (e - 1) l
  = (fst (shr_fexp prec emax m e l), snd (shr_fexp prec emax m e l) - 1).
Proof.
  intros He. unfold shr_fexp.
  destruct (Z_lt_le_dec (emin prec emax + prec) (Zdigits2 m + e)) as [Hn | Hs].
  - replace (fexp prec emax (Zdigits2 m + (e - 1)) - (e - 1))
      with (fexp prec emax (Zdigits2 m + e) - e)
      by (unfold fexp; lia).
    replace (e - 1) with (e + -1) by lia. rewrite shr_exponent.
    f_equal.
  - rewrite !shr_nonpos by (unfold fexp; lia). reflexivity.
Qed.

Lemma binary_round_aux_half s M E l :
  emin prec emax < E ->
  match binary_round_aux prec emax s M E l with
  | S754_infinity _ => True
  | r => binary_round_aux prec emax s M (E - 1) l = half_of r
  end.
Proof.
  intros HE. unfold binary_round_aux.
  rewrite shr_fexp_half by assumption.
  pose proof (shr_exponent_ge (shr_record_of_loc M l) E
                (fexp prec emax (Zdigits2 M + E) - E)) as Hge.
  fold (shr_fexp prec emax M E l) in Hge.
  destruct (shr_fexp prec emax M E l) as [mrs' e']. cbn [fst snd] in *.
  set (m' := round_nearest_even (shr_m mrs') (loc_of_shr_record mrs')).
  rewrite shr_fexp_half by lia.
  destruct (shr_fexp prec emax m' e' loc_Exact) as [mrs'' e''].
  cbn [fst snd].
  destruct (shr_m mrs'') as [| q | q]; cbn [half_of]; try reflexivity.
  destruct (Z.leb_spec e'' (emax - prec)); [| exact I].
  destruct (Z.leb_spec (e'' - 1) (emax - prec)); [| lia].
  reflexivity.
Qed.

Lemma SFmul_half x m e :
  emin prec emax < match x with S754_finite _ _ ex => ex + e | _ => e end ->
  match SFmul prec emax x (S754_finite false m e) with
  | S754_infinity _ => True
  | r => SFmul prec emax x (S754_finite false m (e - 1)) = half_of r
  end.
Proof.
  destruct x as [sx | sx | | sx mx ex]; cbn [SFmul half_of]; auto.
  intros HE.
  replace (ex + (e - 1)) with (ex + e - 1) by lia.
  apply binary_round_aux_half. exact HE.
Qed.

End Rounding.

(** * Facts about the sketch's arithmetic *)

(** ** Integers *)

Lemma to_int32_small z : - 2 ^ 31 <= z < 2 ^ 31 -> to_int32 z = z.
Proof. intros H. unfold to_int32. rewrite Z.mod_small; lia. Qed.

Lemma to_uint32_small z : 0 <= z < 2 ^ 32 -> to_uint32 z = z.
Proof. intros H. unfold to_uint32. now rewrite Z.mod_small. Qed.

Lemma to_uint16_small z : 0 <= z < 2 ^ 16 -> to_uint16 z = z.
Proof. intros H. unfold to_uint16. now rewrite Z.mod_small. Qed.

Lemma to_uint16_range z : 0 <= to_uint16 z < 2 ^ 16.
Proof. unfold to_uint16. apply Z.mod_pos_bound. lia. Qed.

Lemma c_abs_small z : - 2 ^ 31 < z < 2 ^ 31 -> c_abs z = Z.abs z.
Proof.
  intros H. unfold c_abs. destruct (Z.ltb_spec 0 z).
  - lia.
  - rewrite to_int32_small; lia.
Qed.

Lemma quot_div_nonneg a b : 0 <= a -> 0 < b -> Z.quot a b = a / b.
Proof. intros. apply Z.quot_div_nonneg; lia. Qed.

(** ** Register stores *)

Lemma store_other r r' v p : r' <> r -> regs (store r v p) r' = regs p r'.
Proof.
  intros Hne. cbn [store regs].
  destruct r, r'; cbn [reg_eqb]; congruence.
Qed.

Lemma store_same r v p : regs (store r v p) r = to_uint32 v.
Proof. cbn [store regs]. destruct r; reflexivity. Qed.

Lemma iter_store r v p n :
  regs (Nat.iter n (store r v) p) r
  = match n with O => regs p r | S _ => to_uint32 v end.
Proof. destruct n; [reflexivity | apply store_same]. Qed.

(** ** Exhaustive checks over the ADC range *)

Lemma upto_In n : forall z x, In x (upto n z) <-> z <= x < z + Z.of_nat n.
Proof.
  induction n as [| n IH]; intros z x; cbn [upto In].
  - lia.
  - rewrite IH. lia.
Qed.

Lemma upto_check (P : Z -> bool) n z :
  forallb P (upto n z) = true ->
  forall x, z <= x < z + Z.of_nat n -> P x = true.
Proof.
  intros H x Hx. rewrite forallb_forall in H. apply H, upto_In, Hx.
Qed.

Lemma adc_check (P : Z -> bool) :
  forallb P adc_values = true -> forall x, adc x -> P x = true.
Proof.
  intros H x [Hlo Hhi]. apply (upto_check P 1024 0 H).
  unfold ADCmax in Hhi. lia.
Qed.

(** ** Integer parts in [Q] *)

Lemma Qfloor_frac a m p :
  Qfloor (inject_Z a * F2Q (S754_finite false m (Zneg p)))
  = a * Zpos m / 2 ^ Zpos p.
Proof.
  cbn [F2Q cond_Zopp]. unfold Qmult, Qfloor, inject_Z. cbn [Qnum Qden].
  rewrite Pos.mul_1_l, Pos2Z.inj_pow. reflexivity.
Qed.

Lemma Qceiling_frac a m p :
  Qceiling (inject_Z a * F2Q (S754_finite false m (Zneg p)))
  = - (- (a * Zpos m) / 2 ^ Zpos p).
Proof.
  unfold Qceiling. cbn [F2Q cond_Zopp].
  unfold Qopp, Qmult, Qfloor, inject_Z. cbn [Qnum Qden].
  rewrite Pos.mul_1_l, Pos2Z.inj_pow. reflexivity.
Qed.

Lemma Qfloor_zero_r a s : Qfloor (inject_Z a * F2Q (S754_zero s)) = 0.
Proof.
  cbn [F2Q]. unfold Qmult, Qfloor, inject_Z. cbn [Qnum Qden].
  now rewrite Z.mul_0_r.
Qed.

Lemma Qceiling_zero_r a s : Qceiling (inject_Z a * F2Q (S754_zero s)) = 0.
Proof.
  unfold Qceiling. cbn [F2Q]. unfold Qopp, Qmult, Qfloor, inject_Z.
  cbn [Qnum Qden]. now rewrite Z.mul_0_r.
Qed.

Lemma Qfloor_zero_l x : Qfloor (inject_Z 0 * x) = 0.
Proof. destruct x as [n d]. reflexivity. Qed.

Lemma Qceiling_zero_l x : Qceiling (inject_Z 0 * x) = 0.
Proof. destruct x as [n d]. reflexivity. Qed.

Lemma ceil_div_bounds n d k :
  0 < d -> n <= k * d -> n <= - (- n / d) * d /\ - (- n / d) <= k.
Proof. intros Hd Hk. Z.div_mod_to_equations. nia. Qed.

(** ** The integer part of integer times fraction

    Every conversion [(int)(n * ratio)] of the sketch multiplies a small
    non-negative integer by a fraction in [0, 1].  In either format the
    result is defined, never exceeds the integer, and is within the
    integer parts below and above the exact product. *)
Lemma trunc_int_times_frac prec emax A y :
  2 <= prec <= emax -> 0 <= A < 2 ^ prec -> frac01 y = true ->
  exists c,
    trunc (SFmul prec emax (binary_normalize prec emax A 0 false) y) = Some c /\
    Qfloor (F2Q (SFmul prec emax (binary_normalize prec emax A 0 false) y)) = c /\
    Qfloor (inject_Z A * F2Q y) <= c <= Qceiling (inject_Z A * F2Q y) /\
    0 <= c <= A.
Proof.
  intros [Hp He] [HA0 HA] Hy.
  destruct (Z.eq_dec A 0) as [-> | HAn].
  - exists 0. rewrite Qfloor_zero_l, Qceiling_zero_l.
    destruct y as [sy | sy | | [|] my [| py | py]]; try discriminate Hy;
      cbn [binary_normalize SFmul trunc F2Q];
      (split; [reflexivity | split; [reflexivity | lia]]).
  - destruct y as [sy | sy | | [|] my [| py | py]]; try discriminate Hy.
    + exists 0. rewrite Qfloor_zero_r, Qceiling_zero_r.
      destruct (binary_normalize_int prec emax Hp He A) as (mx & ex & -> & _);
        [lia|].
      cbn [SFmul trunc F2Q]. split; [reflexivity | split; [reflexivity | lia]].
    + cbn [frac01] in Hy. apply Z.leb_le in Hy.
      assert (Pp : 0 < 2 ^ Z.pos py) by (apply Z.pow_pos_nonneg; lia).
      destruct (ceil_div_bounds (A * Z.pos my) (2 ^ Z.pos py) A Pp)
        as [Hc1 Hc2]; [nia|].
      set (B := - (- (A * Z.pos my) / 2 ^ Z.pos py)) in *.
      assert (HB0 : 0 <= B) by nia.
      destruct (SFmul_int_frac prec emax Hp He A my py B)
        as (c & Hc & Hq & Hlo & Hhi); try lia.
      exists c. rewrite Qfloor_frac, Qceiling_frac. fold B.
      assert (0 <= A * Z.pos my / 2 ^ Z.pos py) by (apply Z.div_pos; lia).
      repeat split; try assumption; lia.
Qed.

(** [(int)] of such a product is therefore defined. *)
Lemma int_of_float_trunc x c :
  trunc x = Some c -> - 2 ^ 31 <= c < 2 ^ 31 -> int_of_float x = Some c.
Proof.
  intros Hx Hc. unfold int_of_float. rewrite Hx. unfold in_int32.
  destruct (Z.leb_spec (- 2 ^ 31) c); [| lia].
  destruct (Z.ltb_spec c (2 ^ 31)); [| lia]. reflexivity.
Qed.

Lemma int_of_float_inv x c : int_of_float x = Some c -> trunc x = Some c.
Proof.
  unfold int_of_float. destruct (trunc x) as [z |]; [| discriminate].
  destruct (in_int32 z); [| discriminate]. intros H; exact H.
Qed.

(** ** The fractions the sketch computes

    The readings range over 1024 values, so what [x / 1023.0] and the
    products of two such doubles round to is settled by evaluation. *)

Lemma adc_fraction_frac01 r :
  adc r -> frac01 (f64_of_f32 (f32_of_f64 (adc_fraction r))) = true.
Proof.
  apply (adc_check (fun r => frac01 (f64_of_f32 (f32_of_f64 (adc_fraction r))))).
  vm_compute. reflexivity.
Qed.

Lemma is_some_exists {A} (o : option A) :
  is_some o = true -> exists a, o = Some a.
Proof. destruct o as [a |]; [now exists a | discriminate]. Qed.

Lemma spec_float_eqb_eq x y : spec_float_eqb x y = true -> x = y.
Proof.
  destruct x as [s | s | | s m e], y as [s' | s' | | s' m' e'];
    cbn [spec_float_eqb]; try discriminate; try reflexivity.
  - intros H. apply Bool.eqb_prop in H. now subst.
  - intros H. apply Bool.eqb_prop in H. now subst.
  - intros H. apply andb_true_iff in H. destruct H as [H He].
    apply andb_true_iff in H. destruct H as [Hs Hm].
    apply Bool.eqb_prop in Hs. apply Z.eqb_eq in Hm, He.
    injection Hm as ->. now subst.
Qed.

Lemma LFOtime_defined r : adc r -> exists t, LFOtime_of r = Some t.
Proof.
  intros Hr. apply is_some_exists. revert r Hr.
  apply (adc_check (fun r => is_some (LFOtime_of r))).
  vm_compute. reflexivity.
Qed.

Lemma harmonic_ratio_frac01 r c :
  adc r -> 0 <= c <= 4 -> frac01 (harmonic_ratio_of r c) = true.
Proof.
  intros Hr Hc.
  assert (Hcases : c = 0 \/ c = 1 \/ c = 2 \/ c = 3 \/ c = 4) by lia.
  revert r Hr.
  destruct Hcases as [-> | [-> | [-> | [-> | ->]]]];
    match goal with
    | |- forall r, adc r -> frac01 (harmonic_ratio_of r ?c) = true =>
        apply (adc_check (fun r => frac01 (harmonic_ratio_of r c)))
    end; vm_compute; reflexivity.
Qed.

Lemma pulsefraction_frac01 r b :
  adc r -> frac01 (pulsefraction_of r (LFOvalue_of b)) = true.
Proof.
  revert r. destruct b;
    match goal with
    | |- forall r, adc r -> frac01 (pulsefraction_of r ?l) = true =>
        apply (adc_check (fun r => frac01 (pulsefraction_of r l)))
    end; vm_compute; reflexivity.
Qed.

(** With the LFO low the pulse fraction is the same float one binade
    down: exactly half. *)
Lemma pulsefraction_halved r :
  adc r ->
  halved (pulsefraction_of r (LFOvalue_of true))
         (pulsefraction_of r (LFOvalue_of false)) = true.
Proof.
  revert r.
  apply (adc_check (fun r => halved (pulsefraction_of r (LFOvalue_of true))
                                   (pulsefraction_of r (LFOvalue_of false)))).
  vm_compute. reflexivity.
Qed.

(** [499.0 - (i/2 - 1)] is the double of the integer [500 - i/2]. *)
Lemma sweep_factor i :
  0 <= i < 1000 ->
  f64_sub (f64_of_int 499) (f64_of_int (to_int32 (Z.quot i 2 - 1)))
  = f64_of_int (500 - i / 2).
Proof.
  intros Hi. apply spec_float_eqb_eq.
  apply (upto_check
           (fun i => spec_float_eqb
              (f64_sub (f64_of_int 499) (f64_of_int (to_int32 (Z.quot i 2 - 1))))
              (f64_of_int (500 - i / 2))) 1000 0);
    [vm_compute; reflexivity | lia].
Qed.

(** ** The three conversions [(int)(n * ratio)] *)

Lemma compare_ticks_bounds top pf :
  0 <= top < 2 ^ 16 -> frac01 pf = true ->
  exists c,
    compare_ticks top pf = Some c /\
    Qfloor (F2Q (f32_mul (f32_of_int top) pf)) = c /\
    Qfloor (inject_Z top * F2Q pf) <= c <= Qceiling (inject_Z top * F2Q pf) /\
    0 <= c <= top.
Proof.
  intros Htop Hpf.
  destruct (trunc_int_times_frac 24 128 top pf) as (c & Hc & Hq & Hb & Hr);
    try lia; try assumption.
  exists c. repeat split; try assumption; try lia.
  apply int_of_float_trunc; [exact Hc | lia].
Qed.

Lemma VOL_harmonic_of_bounds vol hr :
  0 <= vol < 2 ^ 16 -> frac01 hr = true ->
  exists c,
    VOL_harmonic_of vol hr = Some c /\
    Qfloor (F2Q (f32_mul (f32_of_int vol) hr)) = c /\
    Qfloor (inject_Z vol * F2Q hr) <= c <= Qceiling (inject_Z vol * F2Q hr) /\
    0 <= c <= vol.
Proof. exact (compare_ticks_bounds vol hr). Qed.

Lemma VOL_of_bounds rvol i :
  adc rvol -> 0 <= i < 1000 ->
  exists c, VOL_of rvol i = Some c /\ 0 <= c <= 500 - i / 2.
Proof.
  intros Hr Hi. unfold VOL_of. rewrite sweep_factor by assumption.
  unfold f64_mul. rewrite SFmul_comm.
  assert (Hdiv : 0 <= i / 2 < 500) by (Z.div_mod_to_equations; lia).
  destruct (trunc_int_times_frac 53 1024 (500 - i / 2)
              (f64_of_f32 (f32_of_f64 (adc_fraction rvol))))
    as (c & Hc & _ & _ & Hb); try lia.
  - now apply adc_fraction_frac01.
  - exists c. split; [| lia]. apply int_of_float_trunc; [exact Hc | lia].
Qed.

(** ** [UpdateTF] *)

Lemma ticks_range newTF :
  0 < newTF < 2 ^ 16 ->
  to_int32 (Z.quot GCLK8_Hz newTF - 1) = GCLK8_Hz / newTF - 1 /\
  182 <= GCLK8_Hz / newTF - 1 < GCLK8_Hz.
Proof.
  intros H. unfold GCLK8_Hz. rewrite quot_div_nonneg by lia.
  assert (183 <= 12000000 / newTF <= 12000000).
  { split.
    - apply Z.div_le_lower_bound; lia.
    - apply Z.div_le_upper_bound; lia. }
  rewrite to_int32_small; lia.
Qed.

Lemma UpdateTF_spec newTF s :
  0 < newTF < 2 ^ 16 -> frac01 (pulsefraction (g s)) = true ->
  exists cc,
    compare_ticks (to_uint16 (GCLK8_Hz / newTF - 1)) (pulsefraction (g s))
      = Some cc /\
    0 <= cc <= to_uint16 (GCLK8_Hz / newTF - 1) /\
    UpdateTF newTF s
    = Some (mkState
              (set_TCTOP (GCLK8_Hz / newTF - 1)
                 (to_uint16 (GCLK8_Hz / newTF - 1)) (g s))
              (store TCC2_CC0 cc
                 (store TCC2_PER (to_uint16 (GCLK8_Hz / newTF - 1)) (hw s)))).
Proof.
  intros HTF Hpf. destruct (ticks_range newTF HTF) as [Heq _].
  pose proof (to_uint16_range (GCLK8_Hz / newTF - 1)) as Hr.
  destruct (compare_ticks_bounds _ _ Hr Hpf) as (cc & Hcc & _ & _ & Hb).
  exists cc. repeat split; try assumption; try lia.
  unfold UpdateTF. destruct (Z.eqb_spec newTF 0); [lia|].
  rewrite Heq, Hcc. reflexivity.
Qed.

(** What a successful [UpdateTF] did. *)
Lemma UpdateTF_inv newTF s s' :
  UpdateTF newTF s = Some s' ->
  newTF <> 0 /\
  exists cc,
    compare_ticks (to_uint16 (to_int32 (Z.quot GCLK8_Hz newTF - 1)))
      (pulsefraction (g s)) = Some cc /\
    s' = mkState
           (set_TCTOP (to_int32 (Z.quot GCLK8_Hz newTF - 1))
              (to_uint16 (to_int32 (Z.quot GCLK8_Hz newTF - 1))) (g s))
           (store TCC2_CC0 cc
              (store TCC2_PER
                 (to_uint16 (to_int32 (Z.quot GCLK8_Hz newTF - 1))) (hw s))).
Proof.
  unfold UpdateTF. destruct (Z.eqb_spec newTF 0); [discriminate|].
  destruct (compare_ticks _ _) as [cc |]; [| discriminate].
  intros [= <-]. split; [assumption|]. now exists cc.
Qed.

(** ** One pass of [loop] *)

Ltac proj_simpl :=
  cbn [g hw set_TCTOP set_harmonic set_time1 VOL harmonic_ratio VOL_harmonic
       TF TCTOPL TCTOP pulsefraction harmonic readHarmonicRatio readVOL
       readPulseFraction readTF LFO LFOvalue time1 time2 time3 count count2
       regs stores INTFLAG_OVF INTFLAG_MC0 store] in *.

(** What a successful pass did, field by field. *)
Lemma loop_body_inv i inp s s' :
  loop_body i inp s = Some s' ->
  exists LFOtime cc,
    LFOtime_of (readPulseFraction (g s)) = Some LFOtime /\
    LFO (g s') =
      (if LFOtime <=? to_int32 (to_int32 (micros inp) - time1 (g s))
       then negb (LFO (g s)) else LFO (g s)) /\
    count2 (g s') =
      (if LFOtime <=? to_int32 (to_int32 (micros inp) - time1 (g s))
       then (if to_int32 (count2 (g s) + 1) =? 5
             then 0 else to_int32 (count2 (g s) + 1))
       else count2 (g s)) /\
    readHarmonicRatio (g s') = deadband (readHarmonicRatio (g s)) (A3 inp) /\
    readVOL (g s') = deadband (readVOL (g s)) (A4 inp) /\
    readPulseFraction (g s') = deadband (readPulseFraction (g s)) (A2 inp) /\
    readTF (g s') = deadband (readTF (g s)) (A0 inp) /\
    harmonic_ratio (g s')
      = harmonic_ratio_of (readHarmonicRatio (g s')) (count2 (g s')) /\
    VOL_of (readVOL (g s')) i = Some (VOL (g s')) /\
    VOL_harmonic_of (VOL (g s')) (harmonic_ratio (g s'))
      = Some (VOL_harmonic (g s')) /\
    TF (g s') = to_int32 (to_int32 (readTF (g s') + to_int32 (120 * count (g s)))
                          + to_int32 (i * 6)) /\
    pulsefraction (g s')
      = pulsefraction_of (readPulseFraction (g s')) (LFOvalue_of (LFO (g s'))) /\
    harmonic (g s') = harmonic (g s) /\
    count (g s') = count (g s) /\
    to_uint16 (TF (g s')) <> 0 /\
    TCTOPL (g s') = to_int32 (Z.quot GCLK8_Hz (to_uint16 (TF (g s'))) - 1) /\
    TCTOP (g s') = to_uint16 (TCTOPL (g s')) /\
    compare_ticks (TCTOP (g s')) (pulsefraction (g s')) = Some cc /\
    hw s' = store TCC2_CC0 cc (store TCC2_PER (TCTOP (g s')) (hw s)).
Proof.
  unfold loop_body.
  destruct (LFOtime_of (readPulseFraction (g s))) as [LFOtime |];
    [| discriminate].
  destruct (VOL_of _ i) as [VOL' |] eqn:HVOL; [| discriminate].
  destruct (VOL_harmonic_of VOL' _) as [VH' |] eqn:HVH; [| discriminate].
  intros H. apply UpdateTF_inv in H. destruct H as [Hne (cc & Hcc & ->)].
  proj_simpl. exists LFOtime, cc.
  repeat (split; [first [reflexivity | assumption] |]). reflexivity.
Qed.

Lemma deadband_cases old new : deadband old new = new \/ deadband old new = old.
Proof. unfold deadband. destruct (_ <? _); auto. Qed.

Lemma deadband_adc old new : adc old -> adc new -> adc (deadband old new).
Proof. destruct (deadband_cases old new) as [-> | ->]; auto. Qed.

(** On ADC readings, with the frequency word not zero, a pass is
    defined and keeps the state well formed. *)
Lemma loop_body_defined i inp s :
  wf (g s) -> wf_inputs inp -> 0 <= i < 1000 ->
  0 < deadband (readTF (g s)) (A0 inp) + i * 6 ->
  exists s', loop_body i inp s = Some s' /\ wf (g s').
Proof.
  intros [H1 H2 H3 H4 H5 H6] [Hm I3 I4 I2 I0] Hi Hnz.
  unfold loop_body.
  destruct (LFOtime_defined _ H3) as (LFOtime & ->).
  pose proof (deadband_adc _ _ H1 I3) as D3.
  pose proof (deadband_adc _ _ H2 I4) as D4.
  pose proof (deadband_adc _ _ H3 I2) as D2.
  pose proof (deadband_adc _ _ H4 I0) as D0.
  destruct (VOL_of_bounds _ i D4 Hi) as (VOL' & -> & HVOL).
  set (fire := LFOtime <=? _).
  set (count2' := if fire then _ else count2 (g s)).
  assert (Hc2 : 0 <= count2' <= 4).
  { unfold count2'. destruct fire; [| assumption].
    rewrite to_int32_small by lia.
    destruct (Z.eqb_spec (count2 (g s) + 1) 5); lia. }
  assert (Hdiv : 0 <= i / 2) by (apply Z.div_pos; lia).
  destruct (VOL_harmonic_of_bounds VOL'
              (harmonic_ratio_of (deadband (readHarmonicRatio (g s)) (A3 inp))
                 count2'))
    as (VH' & -> & _); [lia | now apply harmonic_ratio_frac01 |].
  rewrite H6.
  set (TF' := to_int32 _).
  assert (HTF : TF' = deadband (readTF (g s)) (A0 inp) + i * 6).
  { unfold TF'. unfold adc, ADCmax in D0.
    rewrite (to_int32_small (120 * 0)) by lia.
    rewrite (to_int32_small (i * 6)) by lia.
    rewrite (to_int32_small (_ + 120 * 0)) by lia.
    rewrite to_int32_small by lia. lia. }
  set (s1 := mkState _ (hw s)).
  destruct (UpdateTF_spec (to_uint16 TF') s1) as (cc & _ & _ & ->).
  - unfold adc, ADCmax in D0. rewrite to_uint16_small by lia. lia.
  - unfold s1. proj_simpl. now apply pulsefraction_frac01.
  - eexists. split; [reflexivity|].
    unfold s1. proj_simpl. now constructor.
Qed.

(** * Start-up *)

Lemma setup_1000 : setup reset_periph 1 1000 = Some after_setup.
Proof. vm_compute. reflexivity. Qed.

Lemma after_setup_wf : wf (g after_setup).
Proof. constructor; cbn; unfold adc, ADCmax; lia. Qed.

(** [setup] programs the period of the static initialiser, which is the
    half-period formula at 440 Hz.  The carrier's period is 499 provided
    the busy bit was seen set at least once. *)
Lemma setup_period boot wave_busy now :
  exists s0,
    setup boot wave_busy now = Some s0 /\
    regs (hw s0) TCC2_PER = spec_periodTicks GCLK8_Hz 440 /\
    regs (hw s0) TCC2_PER = 13635 /\
    regs (hw s0) TCC1_PER
    = match wave_busy with O => regs boot TCC1_PER | S _ => carrierTop end.
Proof.
  unfold setup.
  assert (Hg : initial_globals = Some (set_time1 1 (g after_setup)))
    by (vm_compute; reflexivity).
  rewrite Hg.
  change (VOL (set_time1 1 (g after_setup))) with 499.
  change (TCTOP (set_time1 1 (g after_setup))) with 13635.
  change (pulsefraction (set_time1 1 (g after_setup)))
    with (f32_of_f64 (f64_lit 6 10)).
  assert (Hcc : uint32_of_float
                  (f32_mul (f32_of_int 13635) (f32_of_f64 (f64_lit 6 10)))
                = Some 8181) by (vm_compute; reflexivity).
  rewrite Hcc. eexists. split; [reflexivity|].
  cbn [hw].
  assert (HP : forall p, regs (store TCC2_CC0 8181 (store TCC2_PER 13635 p))
                           TCC2_PER = 13635) by (intros p; reflexivity).
  rewrite HP. split; [reflexivity|]. split; [reflexivity|].
  rewrite (store_other TCC2_CC0 TCC1_PER) by discriminate.
  rewrite (store_other TCC2_PER TCC1_PER) by discriminate.
  rewrite (store_other TCC1_CC0 TCC1_PER) by discriminate.
  rewrite iter_store. destruct wave_busy; reflexivity.
Qed.

(** * The deadband filter *)

Lemma deadband_spec old new :
  Z.abs (new - old) < 2 ^ 31 ->
  deadband old new = if noisefilter <? Z.abs (new - old) then new else old.
Proof.
  intros H. unfold deadband.
  rewrite to_int32_small by lia. rewrite c_abs_small by lia. reflexivity.
Qed.

Lemma deadband_hold old samples :
  Forall (fun x => Z.abs (x - old) <= noisefilter) samples ->
  fold_left deadband samples old = old.
Proof.
  induction 1 as [| x xs Hx _ IH]; cbn [fold_left]; [reflexivity|].
  unfold noisefilter in Hx.
  rewrite deadband_spec by lia.
  destruct (Z.ltb_spec noisefilter (Z.abs (x - old))) as [Hlt | _];
    [unfold noisefilter in Hlt; lia | exact IH].
Qed.

(** C7. The deadband filter replaces the retained value exactly when the
    new sample is more than [noisefilter] = 20 away from it: a delta of
    exactly 20 (either way) leaves it, a delta of 21 replaces it, and
    any run of samples within 20 of the retained value never changes
    it. *)
Theorem deadband_filter (old new : Z) (samples : list Z) :
  Z.abs (new - old) < 2 ^ 31 ->
  Forall (fun x => Z.abs (x - old) <= noisefilter) samples ->
  (noisefilter < Z.abs (new - old) -> deadband old new = new) /\
  (Z.abs (new - old) <= noisefilter -> deadband old new = old) /\
  (deadband old new <> old <-> noisefilter < Z.abs (new - old)) /\
  deadband old (old + noisefilter) = old /\
  deadband old (old - noisefilter) = old /\
  deadband old (old + (noisefilter + 1)) = old + (noisefilter + 1) /\
  deadband old (old - (noisefilter + 1)) = old - (noisefilter + 1) /\
  fold_left deadband samples old = old.
Proof.
  intros Hd Hs.
  pose proof (deadband_spec old new Hd) as Hspec.
  assert (Hn : noisefilter = 20) by reflexivity.
  repeat split.
  - intros H. rewrite Hspec. destruct (Z.ltb_spec noisefilter (Z.abs (new - old))); lia.
  - intros H. rewrite Hspec. destruct (Z.ltb_spec noisefilter (Z.abs (new - old))); lia.
  - rewrite Hspec. destruct (Z.ltb_spec noisefilter (Z.abs (new - old))); lia.
  - rewrite Hspec. destruct (Z.ltb_spec noisefilter (Z.abs (new - old))); lia.
  - rewrite deadband_spec by lia.
    destruct (Z.ltb_spec noisefilter (Z.abs (old + noisefilter - old))); lia.
  - rewrite deadband_spec by lia.
    destruct (Z.ltb_spec noisefilter (Z.abs (old - noisefilter - old))); lia.
  - rewrite deadband_spec by lia.
    destruct (Z.ltb_spec noisefilter (Z.abs (old + (noisefilter + 1) - old))); lia.
  - rewrite deadband_spec by lia.
    destruct (Z.ltb_spec noisefilter (Z.abs (old - (noisefilter + 1) - old))); lia.
  - now apply deadband_hold.
Qed.

Lemma deadband_filter_witness :
  deadband 500 521 = 521 /\ deadband 500 520 = 500 /\
  fold_left deadband [510; 480; 520; 500] 500 = 500.
Proof.
  assert (Hd : Z.abs (521 - 500) < 2 ^ 31) by lia.
  assert (Hs : Forall (fun x => Z.abs (x - 500) <= noisefilter)
                 [510; 480; 520; 500])
    by (unfold noisefilter; repeat constructor; lia).
  pose proof (deadband_filter 500 521 [510; 480; 520; 500] Hd Hs)
    as (H1 & _ & _ & H4 & _ & _ & _ & H8).
  split; [apply H1; unfold noisefilter; lia|].
  split; [exact H4 | exact H8].
Defined.

(** Each pass filters the four channels this way. *)
Lemma loop_body_filters i inp s s' :
  loop_body i inp s = Some s' ->
  readHarmonicRatio (g s') = deadband (readHarmonicRatio (g s)) (A3 inp) /\
  readVOL (g s') = deadband (readVOL (g s)) (A4 inp) /\
  readPulseFraction (g s') = deadband (readPulseFraction (g s)) (A2 inp) /\
  readTF (g s') = deadband (readTF (g s)) (A0 inp).
Proof.
  intros H. apply loop_body_inv in H.
  destruct H as (t & cc & _ & _ & _ & H3 & H4 & H2 & H0 & _). auto.
Qed.

(** * Who writes the carrier's compare register and the phase flag *)

Lemma loop_body_frame i inp s s' :
  loop_body i inp s = Some s' ->
  (exists cc,
     stores (hw s') = (TCC2_CC0, to_uint32 cc)
                      :: (TCC2_PER, to_uint32 (TCTOP (g s')))
                      :: stores (hw s)) /\
  regs (hw s') TCC1_CC0 = regs (hw s) TCC1_CC0 /\
  regs (hw s') TCC1_PER = regs (hw s) TCC1_PER /\
  harmonic (g s') = harmonic (g s).
Proof.
  intros H. apply loop_body_inv in H.
  destruct H as (t & cc & H). decompose [and] H. clear H.
  match goal with Hhw : hw s' = _ |- _ => rewrite Hhw end.
  split; [exists cc; reflexivity|].
  rewrite !store_other by discriminate. auto.
Qed.

(** The handlers are the writers: an overflow stores one of the two
    volumes, a match stores 0. *)
Lemma handlers_write_duty s :
  stores (hw (overflow_event s))
  = (TCC1_CC0, to_uint32 (if harmonic (g s) then VOL_harmonic (g s) else VOL (g s)))
    :: stores (hw s) /\
  stores (hw (compare_event s)) = (TCC1_CC0, 0) :: stores (hw s).
Proof.
  unfold overflow_event, compare_event, TCC2_0_Handler, TCC2_1_Handler.
  cbn [hw g raise_OVF raise_MC0 INTFLAG_OVF INTFLAG_MC0].
  destruct (harmonic (g s)); split; reflexivity.
Qed.

(** In any interleaving, the stores to TCC1->CC[0] are those of the
    handlers: one per timer event. *)
Lemma run_duty_stores es :
  forall s s',
    run es s = Some s' ->
    duty_stores (stores (hw s'))
    = (duty_stores (stores (hw s)) + timer_events es)%nat.
Proof.
  induction es as [| e es IH]; intros s s' H; cbn [run] in H.
  - injection H as <-. unfold timer_events. cbn. lia.
  - destruct (step e s) as [s1 |] eqn:E; [| discriminate].
    rewrite (IH _ _ H). destruct e; cbn [step] in E.
    + injection E as <-.
      destruct (handlers_write_duty s) as [-> _].
      unfold duty_stores, timer_events. cbn. lia.
    + injection E as <-.
      destruct (handlers_write_duty s) as [_ ->].
      unfold duty_stores, timer_events. cbn. lia.
    + destruct (loop_body_frame _ _ _ _ E) as ((cc & ->) & _).
      unfold duty_stores, timer_events. cbn. lia.
Qed.

(** C8. A pass of the control loop stores to TCC2's PER and CC[0] only:
    it performs no store to the carrier's compare register TCC1->CC[0],
    whose content it leaves as it was, and it leaves the phase flag
    [harmonic] as it was.  In any interleaving of passes and timer
    events the stores to TCC1->CC[0] are as many as the timer events:
    they are the handlers'. *)
Theorem loop_never_writes_duty_or_phase i inp s s' :
  loop_body i inp s = Some s' ->
  (exists new,
     stores (hw s') = new ++ stores (hw s) /\
     Forall (fun w => fst w = TCC2_PER \/ fst w = TCC2_CC0) new) /\
  regs (hw s') TCC1_CC0 = regs (hw s) TCC1_CC0 /\
  harmonic (g s') = harmonic (g s) /\
  (forall es s1,
     run es s' = Some s1 ->
     duty_stores (stores (hw s1))
     = (duty_stores (stores (hw s)) + timer_events es)%nat).
Proof.
  intros H. destruct (loop_body_frame i inp s s' H) as ((cc & Hst) & Hr & _ & Hh).
  split; [| split; [exact Hr | split; [exact Hh |]]].
  - exists [(TCC2_CC0, to_uint32 cc); (TCC2_PER, to_uint32 (TCTOP (g s')))].
    split; [exact Hst|].
    constructor; [right; reflexivity|].
    constructor; [left; reflexivity | constructor].
  - intros es s1 Hrun. rewrite (run_duty_stores es s' s1 Hrun), Hst.
    reflexivity.
Qed.

Lemma loop_never_writes_duty_or_phase_witness :
  exists s',
    loop_body 0 (mkInputs 1100 700 1023 512 440) after_setup = Some s' /\
    regs (hw s') TCC1_CC0 = regs (hw after_setup) TCC1_CC0 /\
    harmonic (g s') = harmonic (g after_setup).
Proof.
  destruct (loop_body 0 (mkInputs 1100 700 1023 512 440) after_setup)
    as [s' |] eqn:E; [| vm_compute in E; discriminate E].
  exists s'. split; [reflexivity|].
  destruct (loop_never_writes_duty_or_phase _ _ _ _ E) as (_ & Hr & Hh & _).
  split; [exact Hr | exact Hh].
Defined.

(** The same over any number of passes of [loop]. *)
Lemma loop_from_frame inps :
  forall i s s',
    loop_from i inps s = Some s' ->
    (exists new,
       stores (hw s') = new ++ stores (hw s) /\
       Forall (fun w => fst w = TCC2_PER \/ fst w = TCC2_CC0) new) /\
    regs (hw s') TCC1_CC0 = regs (hw s) TCC1_CC0 /\
    harmonic (g s') = harmonic (g s).
Proof.
  induction inps as [| inp rest IH]; intros i s s' H; cbn [loop_from] in H.
  - injection H as <-. split; [| now split]. exists []. now split.
  - destruct (loop_body i inp s) as [s1 |] eqn:E; [| discriminate].
    destruct (IH _ _ _ H) as ((new & Hnew & Hall) & Hr & Hh).
    destruct (loop_body_frame _ _ _ _ E) as ((cc & Hst) & Hr1 & _ & Hh1).
    split; [| split; congruence].
    exists (new ++ [(TCC2_CC0, to_uint32 cc);
                    (TCC2_PER, to_uint32 (TCTOP (g s1)))]).
    split.
    + rewrite Hnew, Hst, <- app_assoc. reflexivity.
    + apply Forall_app. split; [exact Hall|].
      constructor; [right; reflexivity|].
      constructor; [left; reflexivity | constructor].
Qed.

Lemma loop_frame env s s' :
  loop env s = Some s' ->
  regs (hw s') TCC1_CC0 = regs (hw s) TCC1_CC0 /\
  harmonic (g s') = harmonic (g s).
Proof. intros H. now destruct (loop_from_frame _ _ _ _ H) as (_ & Hr & Hh). Qed.

(** * The phase state machine *)

Lemma harmonic_overflow s :
  harmonic (g (overflow_event s)) = negb (harmonic (g s)).
Proof.
  unfold overflow_event, TCC2_0_Handler.
  cbn [hw g raise_OVF INTFLAG_OVF].
  destruct (harmonic (g s)); reflexivity.
Qed.

Lemma harmonic_compare s : harmonic (g (compare_event s)) = harmonic (g s).
Proof. reflexivity. Qed.

(** A handler entered without its flag leaves everything alone. *)
Lemma handler_without_flag s :
  INTFLAG_OVF (hw s) = false -> TCC2_0_Handler s = s.
Proof. intros H. unfold TCC2_0_Handler. now rewrite H. Qed.

Lemma run_harmonic es :
  forall s s',
    run es s = Some s' ->
    harmonic (g s')
    = if Nat.even (overflows es) then harmonic (g s) else negb (harmonic (g s)).
Proof.
  induction es as [| e es IH]; intros s s' H; cbn [run] in H.
  - injection H as <-. reflexivity.
  - destruct (step e s) as [s1 |] eqn:E; [| discriminate].
    rewrite (IH _ _ H). destruct e; cbn [step] in E.
    + injection E as <-. rewrite harmonic_overflow.
      change (overflows (Overflow :: es)) with (S (overflows es)).
      rewrite Nat.even_succ, <- Nat.negb_even.
      destruct (Nat.even (overflows es)), (harmonic (g s)); reflexivity.
    + injection E as <-. reflexivity.
    + change (overflows (Pass i inp :: es)) with (overflows es).
      destruct (loop_body_frame _ _ _ _ E) as (_ & _ & _ & ->). reflexivity.
Qed.

Lemma onTimerSW_parity n t :
  ESP32.up (Nat.iter n ESP32.onTimerSW t)
  = if Nat.even n then ESP32.up t else negb (ESP32.up t).
Proof.
  induction n as [| n IH].
  - reflexivity.
  - change (Nat.iter (S n) ESP32.onTimerSW t)
      with (ESP32.onTimerSW (Nat.iter n ESP32.onTimerSW t)).
    unfold ESP32.onTimerSW at 1. cbn [ESP32.up].
    rewrite IH, Nat.even_succ, <- Nat.negb_even.
    destruct (Nat.even n), (ESP32.up t); reflexivity.
Qed.

(** C4. Starting in phase Fundamental, after any interleaving of
    overflow events, match events and passes of the control loop, the
    phase is Fundamental when the number of overflow events is even and
    Harmonic when it is odd: an overflow toggles it once and nothing
    else touches it.  The ESP32 variant's flag [up] alternates in the
    same way with its timer alarms. *)
Theorem phase_toggles_once_per_overflow es s s' :
  phase_of s = Fundamental ->
  run es s = Some s' ->
  phase_of s' = (if Nat.even (overflows es) then Fundamental else Harmonic) /\
  phase_of (overflow_event s') <> phase_of s' /\
  phase_of (compare_event s') = phase_of s' /\
  (forall n t, ESP32.up (Nat.iter n ESP32.onTimerSW t)
               = if Nat.even n then ESP32.up t else negb (ESP32.up t)).
Proof.
  intros H0 Hrun. unfold phase_of in *.
  rewrite harmonic_overflow, harmonic_compare.
  rewrite (run_harmonic es s s' Hrun).
  destruct (harmonic (g s)); [| discriminate].
  repeat split.
  - destruct (Nat.even (overflows es)); reflexivity.
  - destruct (Nat.even (overflows es)); discriminate.
  - intros n t. apply onTimerSW_parity.
Qed.

Lemma phase_toggles_once_per_overflow_witness :
  exists s',
    run [Overflow; Compare; Pass 0 (mkInputs 1100 700 1023 512 440);
         Overflow; Compare; Overflow] after_setup = Some s' /\
    phase_of s' = Harmonic.
Proof.
  destruct (run [Overflow; Compare; Pass 0 (mkInputs 1100 700 1023 512 440);
                 Overflow; Compare; Overflow] after_setup)
    as [s' |] eqn:E; [| vm_compute in E; discriminate E].
  exists s'. split; [reflexivity|].
  assert (H0 : phase_of after_setup = Fundamental) by reflexivity.
  exact (proj1 (phase_toggles_once_per_overflow _ _ _ H0 E)).
Defined.

(** * Tone frequency to timer period *)

Lemma UpdateTF_period_general newTF s :
  0 < newTF < 2 ^ 16 -> frac01 (pulsefraction (g s)) = true ->
  exists s',
    UpdateTF newTF s = Some s' /\
    TCTOPL (g s') = GCLK8_Hz / newTF - 1 /\
    TCTOP (g s') = (GCLK8_Hz / newTF - 1) mod 2 ^ 16 /\
    regs (hw s') TCC2_PER = (GCLK8_Hz / newTF - 1) mod 2 ^ 16 /\
    In (TCC2_PER, (GCLK8_Hz / newTF - 1) mod 2 ^ 16) (stores (hw s')).
Proof.
  intros HTF Hpf.
  destruct (UpdateTF_spec newTF s HTF Hpf) as (cc & _ & _ & ->).
  eexists. split; [reflexivity|]. proj_simpl.
  pose proof (to_uint16_range (GCLK8_Hz / newTF - 1)) as Hr.
  assert (Hu : to_uint32 (to_uint16 (GCLK8_Hz / newTF - 1))
               = (GCLK8_Hz / newTF - 1) mod 2 ^ 16).
  { rewrite to_uint32_small by lia. reflexivity. }
  repeat split.
  - cbn [reg_eqb]. exact Hu.
  - right. left. now rewrite Hu.
Qed.

(** C1 (as amended). The conversion run when the tone frequency changes,
    [UpdateTF], computes periodTicks = R / toneFrequency - 1 with
    R = 12,000,000, without the factor 2, for every toneFrequency from
    184 to 65535 (where the result fits the 16-bit register), and
    programs it: 27271 for 440.  The value R / (2 x 440) - 1 = 13635 is
    the one the static initialiser computes and [setup] programs. *)
Theorem UpdateTF_period newTF s :
  184 <= newTF < 2 ^ 16 -> frac01 (pulsefraction (g s)) = true ->
  (exists s',
     UpdateTF newTF s = Some s' /\
     TCTOPL (g s') = GCLK8_Hz / newTF - 1 /\
     regs (hw s') TCC2_PER = GCLK8_Hz / newTF - 1 /\
     0 < regs (hw s') TCC2_PER < 2 ^ 16) /\
  GCLK8_Hz / 440 - 1 = 27271 /\
  (forall boot wave_busy now, exists s0,
     setup boot wave_busy now = Some s0 /\
     regs (hw s0) TCC2_PER = spec_periodTicks GCLK8_Hz 440 /\
     regs (hw s0) TCC2_PER = 13635).
Proof.
  intros HTF Hpf. split; [| split; [reflexivity|]].
  - destruct (UpdateTF_period_general newTF s) as (s' & Hs' & HL & _ & HP & _);
      [lia | assumption |].
    assert (Hfit : 0 < GCLK8_Hz / newTF - 1 < 2 ^ 16).
    { unfold GCLK8_Hz.
      assert (183 <= 12000000 / newTF) by (apply Z.div_le_lower_bound; lia).
      assert (12000000 / newTF < 65536)
        by (apply Z.div_lt_upper_bound; lia).
      lia. }
    rewrite Z.mod_small in HP by lia.
    exists s'. rewrite HP. auto.
  - intros boot wave_busy now.
    destruct (setup_period boot wave_busy now) as (s0 & H1 & H2 & H3 & _).
    exists s0. auto.
Qed.

Lemma UpdateTF_period_witness :
  exists s',
    UpdateTF 440 after_setup = Some s' /\
    TCTOPL (g s') = GCLK8_Hz / 440 - 1 /\
    regs (hw s') TCC2_PER = GCLK8_Hz / 440 - 1 /\
    0 < regs (hw s') TCC2_PER < 2 ^ 16.
Proof.
  assert (HTF : 184 <= 440 < 2 ^ 16) by lia.
  assert (Hpf : frac01 (pulsefraction (g after_setup)) = true)
    by (vm_compute; reflexivity).
  exact (proj1 (UpdateTF_period 440 after_setup HTF Hpf)).
Defined.

(** C1 (as stated) fails: at 440 Hz [UpdateTF] programs 27271, not
    R / (2 x 440) - 1 = 13635. *)
Lemma UpdateTF_440_not_half_period :
  exists s',
    UpdateTF 440 after_setup = Some s' /\
    regs (hw s') TCC2_PER = 27271 /\
    spec_periodTicks GCLK8_Hz 440 = 13635 /\
    regs (hw s') TCC2_PER <> spec_periodTicks GCLK8_Hz 440.
Proof.
  destruct (UpdateTF 440 after_setup) as [s' |] eqn:E;
    [| vm_compute in E; discriminate E].
  exists s'. split; [reflexivity|].
  apply UpdateTF_inv in E. destruct E as [_ (cc & _ & ->)].
  proj_simpl. cbn [reg_eqb]. vm_compute. repeat split; discriminate.
Qed.

(** C10. When the tick count R / newTF - 1 exceeds 65535 (that is, for
    newTF from 1 to 183), [UpdateTF] neither rejects nor clamps: it is
    defined, keeps the full count in [TCTOPL], and stores the count
    reduced modulo 2^16, which differs from the count, in TCC2's period
    register. *)
Theorem UpdateTF_wraps_period newTF s :
  0 < newTF < 2 ^ 16 -> frac01 (pulsefraction (g s)) = true ->
  65535 < GCLK8_Hz / newTF - 1 ->
  newTF <= 183 /\
  exists s',
    UpdateTF newTF s = Some s' /\
    TCTOPL (g s') = GCLK8_Hz / newTF - 1 /\
    TCTOP (g s') = (GCLK8_Hz / newTF - 1) mod 2 ^ 16 /\
    regs (hw s') TCC2_PER = (GCLK8_Hz / newTF - 1) mod 2 ^ 16 /\
    regs (hw s') TCC2_PER <> GCLK8_Hz / newTF - 1 /\
    In (TCC2_PER, (GCLK8_Hz / newTF - 1) mod 2 ^ 16) (stores (hw s')).
Proof.
  intros HTF Hpf Hbig. split.
  - destruct (Z_le_gt_dec newTF 183) as [| Hgt]; [assumption|].
    exfalso. unfold GCLK8_Hz in Hbig.
    assert (12000000 / newTF < 65536)
      by (apply Z.div_lt_upper_bound; lia).
    lia.
  - destruct (UpdateTF_period_general newTF s HTF Hpf)
      as (s' & Hs' & HL & HT & HP & Hin).
    exists s'. repeat split; try assumption.
    rewrite HP. pose proof (Z.mod_pos_bound (GCLK8_Hz / newTF - 1) (2 ^ 16)).
    lia.
Qed.

Lemma UpdateTF_wraps_period_witness :
  exists s',
    UpdateTF 100 after_setup = Some s' /\
    TCTOPL (g s') = 119999 /\
    regs (hw s') TCC2_PER = 54463.
Proof.
  assert (HTF : 0 < 100 < 2 ^ 16) by lia.
  assert (Hpf : frac01 (pulsefraction (g after_setup)) = true)
    by (vm_compute; reflexivity).
  assert (Hbig : 65535 < GCLK8_Hz / 100 - 1) by (vm_compute; reflexivity).
  destruct (UpdateTF_wraps_period 100 after_setup HTF Hpf Hbig)
    as (_ & s' & H1 & H2 & _ & H4 & _).
  exists s'. split; [exact H1|]. split; [exact H2 | exact H4].
Defined.

(** The static initialiser's cast wraps in the same way. *)
Lemma TCTOP_init_wraps tf l :
  TCTOPL_init tf = Some l -> 65535 < l ->
  to_uint16 l = l mod 2 ^ 16 /\ to_uint16 l <> l.
Proof.
  intros _ Hl. split; [reflexivity|].
  pose proof (to_uint16_range l). lia.
Qed.

(** * What a pass hands to the conversion *)

Lemma loop_body_TF i inp s s' :
  loop_body i inp s = Some s' ->
  wf (g s) -> wf_inputs inp -> 0 <= i < 1000 ->
  TF (g s') = deadband (readTF (g s)) (A0 inp) + i * 6 /\
  0 <= TF (g s') <= 7017 /\
  to_uint16 (TF (g s')) = TF (g s').
Proof.
  intros H [_ _ _ H4 _ H6] [_ _ _ _ I0] Hi.
  apply loop_body_inv in H. destruct H as (t & cc & H).
  decompose [and] H. clear H.
  pose proof (deadband_adc _ _ H4 I0) as D0. unfold adc, ADCmax in D0.
  match goal with HTF : TF (g s') = _, HR : readTF (g s') = _ |- _ =>
    rewrite HR, H6 in HTF;
    rewrite (to_int32_small (120 * 0)) in HTF by lia;
    rewrite (to_int32_small (i * 6)) in HTF by lia;
    rewrite (to_int32_small (_ + 120 * 0)) in HTF by lia;
    rewrite to_int32_small in HTF by lia;
    rewrite HTF
  end.
  rewrite to_uint16_small by lia. lia.
Qed.

(** A frequency word of zero makes [UpdateTF] divide by zero: the
    pass has no defined outcome. *)
Lemma loop_body_zero_frequency inp s :
  wf (g s) -> deadband (readTF (g s)) (A0 inp) = 0 ->
  loop_body 0 inp s = None.
Proof.
  intros [_ _ _ _ _ H6] Hz. unfold loop_body.
  destruct (LFOtime_of _) as [t |]; [| reflexivity].
  destruct (VOL_of _ 0) as [v |]; [| reflexivity].
  destruct (VOL_harmonic_of v _) as [h |]; [| reflexivity].
  rewrite Hz, H6. reflexivity.
Qed.

(** C2 (as amended). The tone frequency is not clamped.  On ADC
    readings, a pass hands TF = readTF + 6 i (the filtered reading plus
    the sweep term; [count] stays 0), whatever its value from 1 to 7017,
    to [UpdateTF] as it is, and TCC2's period register receives
    (R / TF - 1) mod 2^16. *)
Theorem loop_passes_TF_unclamped i inp s :
  wf (g s) -> wf_inputs inp -> 0 <= i < 1000 ->
  0 < deadband (readTF (g s)) (A0 inp) + i * 6 ->
  exists s',
    loop_body i inp s = Some s' /\
    TF (g s') = deadband (readTF (g s)) (A0 inp) + i * 6 /\
    TCTOPL (g s') = GCLK8_Hz / TF (g s') - 1 /\
    regs (hw s') TCC2_PER = (GCLK8_Hz / TF (g s') - 1) mod 2 ^ 16 /\
    In (TCC2_PER, (GCLK8_Hz / TF (g s') - 1) mod 2 ^ 16) (stores (hw s')).
Proof.
  intros Hwf Hin Hi Hnz.
  destruct (loop_body_defined i inp s Hwf Hin Hi Hnz) as (s' & Hs' & _).
  exists s'. split; [exact Hs'|].
  destruct (loop_body_TF i inp s s' Hs' Hwf Hin Hi) as (HTF & Hr & Hu).
  split; [exact HTF|].
  apply loop_body_inv in Hs'. destruct Hs' as (t & cc & H).
  decompose [and] H. clear H.
  assert (Hpos : 0 < TF (g s') < 2 ^ 16) by lia.
  destruct (ticks_range (TF (g s')) Hpos) as [Hq _].
  match goal with
  | HL : TCTOPL (g s') = _, HT : TCTOP (g s') = _, Hhw : hw s' = _ |- _ =>
      rewrite Hu, Hq in HL; rewrite Hhw, HT, HL
  end.
  pose proof (to_uint16_range (GCLK8_Hz / TF (g s') - 1)) as Hr16.
  assert (Hu32 : to_uint32 (to_uint16 (GCLK8_Hz / TF (g s') - 1))
                 = (GCLK8_Hz / TF (g s') - 1) mod 2 ^ 16).
  { rewrite to_uint32_small by lia. reflexivity. }
  split; [reflexivity|]. split.
  - rewrite store_other by discriminate. rewrite store_same. exact Hu32.
  - cbn [store stores]. right. left. now rewrite Hu32.
Qed.

Lemma loop_passes_TF_unclamped_witness :
  exists s',
    loop_body 0 (mkInputs 1100 1 1 1 50) after_setup = Some s' /\
    TF (g s') = 50 /\
    TCTOPL (g s') = GCLK8_Hz / TF (g s') - 1 /\
    regs (hw s') TCC2_PER = (GCLK8_Hz / TF (g s') - 1) mod 2 ^ 16 /\
    In (TCC2_PER, (GCLK8_Hz / TF (g s') - 1) mod 2 ^ 16) (stores (hw s')).
Proof.
  assert (Hin : wf_inputs (mkInputs 1100 1 1 1 50))
    by (constructor; cbn; unfold adc, ADCmax; lia).
  assert (Hi : 0 <= 0 < 1000) by lia.
  assert (Hnz : 0 < deadband (readTF (g after_setup))
                      (A0 (mkInputs 1100 1 1 1 50)) + 0 * 6)
    by (vm_compute; reflexivity).
  exact (loop_passes_TF_unclamped 0 (mkInputs 1100 1 1 1 50) after_setup
           after_setup_wf Hin Hi Hnz).
Defined.

(** C2 (as stated) fails: a reading of 50 on the pitch channel reaches
    [UpdateTF] as 50, below the documented 183, and the period register
    receives the wrapped count of 50 Hz, not that of a clamped
    frequency. *)
Lemma loop_passes_50Hz :
  exists s',
    loop_body 0 (mkInputs 1100 1 1 1 50) after_setup = Some s' /\
    TF (g s') = 50 /\
    ~ (Fmin <= TF (g s') <= Fmax) /\
    TCTOPL (g s') = GCLK8_Hz / 50 - 1 /\
    65535 < TCTOPL (g s') /\
    regs (hw s') TCC2_PER = 43391 /\
    regs (hw s') TCC2_PER
      <> (GCLK8_Hz / clamp Fmin Fmax (TF (g s')) - 1) mod 2 ^ 16.
Proof.
  destruct (loop_body 0 (mkInputs 1100 1 1 1 50) after_setup)
    as [s' |] eqn:E; [| vm_compute in E; discriminate E].
  exists s'. split; [reflexivity|].
  assert (Hs : (TF (g s'), TCTOPL (g s'), regs (hw s') TCC2_PER)
               = (50, 239999, 43391)).
  { vm_compute in E. injection E as <-. reflexivity. }
  injection Hs as -> -> ->.
  unfold Fmin, Fmax. repeat split; try (vm_compute; congruence); lia.
Qed.

(** * The volume invariant *)

Lemma loop_volume_bounds i inp s s' :
  loop_body i inp s = Some s' ->
  wf (g s) -> wf_inputs inp -> 0 <= i < 1000 ->
  0 <= VOL_harmonic (g s') <= VOL (g s') /\ VOL (g s') <= 500 - i / 2.
Proof.
  intros H [H1 H2 _ _ H5 _] [_ I3 I4 _ _] Hi.
  apply loop_body_inv in H. destruct H as (t & cc & H).
  decompose [and] H. clear H.
  pose proof (deadband_adc _ _ H1 I3) as D3.
  pose proof (deadband_adc _ _ H2 I4) as D4.
  assert (Hc2 : 0 <= count2 (g s') <= 4).
  { match goal with Hc : count2 (g s') = _ |- _ => rewrite Hc end.
    destruct (_ <=? _); [| assumption].
    rewrite to_int32_small by lia.
    destruct (Z.eqb_spec (count2 (g s) + 1) 5); lia. }
  assert (Hdiv : 0 <= i / 2) by (apply Z.div_pos; lia).
  match goal with
  | HV : VOL_of _ i = Some _, HH : VOL_harmonic_of _ _ = Some _,
    HR : readVOL (g s') = _, HQ : readHarmonicRatio (g s') = _,
    HF : harmonic_ratio (g s') = _ |- _ =>
      rewrite HR in HV; rewrite HF, HQ in HH;
      destruct (VOL_of_bounds _ i D4 Hi) as (v & Hv & Hvb);
      rewrite Hv in HV; injection HV as HV;
      destruct (VOL_harmonic_of_bounds (VOL (g s'))
                  (harmonic_ratio_of (deadband (readHarmonicRatio (g s)) (A3 inp))
                     (count2 (g s'))))
        as (h & Hh & _ & _ & Hhb);
      [lia | now apply harmonic_ratio_frac01 |];
      rewrite Hh in HH; injection HH as HH
  end.
  lia.
Qed.

(** From the third pass on the volume stays within the carrier's TOP. *)
Lemma loop_volume_within_top i inp s s' :
  loop_body i inp s = Some s' ->
  wf (g s) -> wf_inputs inp -> 2 <= i < 1000 ->
  0 <= VOL_harmonic (g s') <= VOL (g s') /\ VOL (g s') <= carrierTop.
Proof.
  intros H Hwf Hin Hi.
  destruct (loop_volume_bounds i inp s s' H Hwf Hin) as [Hh Hv]; [lia|].
  split; [exact Hh|].
  assert (1 <= i / 2) by (apply Z.div_le_lower_bound; lia).
  unfold carrierTop. lia.
Qed.

(** C3 fails on the code: on the first pass of [loop] (i = 0), with the
    volume channel at full scale, [VOL] becomes 500, above the carrier's
    TOP of 499, and the overflow handler stores it in TCC1->CC[0]. *)
Theorem loop_VOL_exceeds_carrierTop :
  exists s',
    loop_body 0 (mkInputs 1100 1 1023 1 440) after_setup = Some s' /\
    VOL (g s') = 500 /\
    regs (hw s') TCC1_PER = carrierTop /\
    ~ (0 <= VOL_harmonic (g s') <= VOL (g s') /\ VOL (g s') <= carrierTop) /\
    regs (hw (overflow_event (overflow_event s'))) TCC1_CC0 = 500.
Proof.
  destruct (loop_body 0 (mkInputs 1100 1 1023 1 440) after_setup)
    as [s' |] eqn:E; [| vm_compute in E; discriminate E].
  exists s'. split; [reflexivity|].
  assert (Hs : (VOL (g s'), regs (hw s') TCC1_PER,
                regs (hw (overflow_event (overflow_event s'))) TCC1_CC0)
               = (500, 499, 500)).
  { vm_compute in E. injection E as <-. vm_compute. reflexivity. }
  injection Hs as -> -> ->.
  unfold carrierTop. repeat split; lia.
Qed.

(** * Pulse fraction to compare ticks *)

(** C5 (as amended). The conversion sets compareTicks to the integer
    part of the single-precision product periodTicks x pulseFraction:
    the fraction is dropped by the cast [(int)], nothing is rounded to
    nearest.  For every period below 2^16 and every pulse fraction in
    [0, 1] the value is defined, lies between the integer parts below
    and above the exact product and never exceeds the period;
    [UpdateTF] stores it in TCC2->CC[0]; with 13635 and 0.5 it is
    6817. *)
Theorem UpdateTF_compare_truncates newTF s top :
  0 < newTF < 2 ^ 16 -> frac01 (pulsefraction (g s)) = true ->
  0 <= top < 2 ^ 16 ->
  (exists c,
     compare_ticks top (pulsefraction (g s)) = Some c /\
     c = Qfloor (F2Q (f32_mul (f32_of_int top) (pulsefraction (g s)))) /\
     Qfloor (inject_Z top * F2Q (pulsefraction (g s))) <= c /\
     c <= Qceiling (inject_Z top * F2Q (pulsefraction (g s))) /\
     0 <= c <= top) /\
  (exists s',
     UpdateTF newTF s = Some s' /\
     compare_ticks (TCTOP (g s')) (pulsefraction (g s))
     = Some (regs (hw s') TCC2_CC0)) /\
  compare_ticks 13635 (f32_of_f64 (f64_lit 1 2)) = Some 6817.
Proof.
  intros HTF Hpf Htop. split; [| split; [| vm_compute; reflexivity]].
  - destruct (compare_ticks_bounds _ _ Htop Hpf)
      as (c & Hc & Hq & [Hlo Hhi] & Hb).
    exists c. repeat split; try assumption; lia.
  - destruct (UpdateTF_spec newTF s HTF Hpf) as (cc & Hcc & Hb & ->).
    pose proof (to_uint16_range (GCLK8_Hz / newTF - 1)) as Hr.
    eexists. split; [reflexivity|]. proj_simpl. cbn [reg_eqb].
    rewrite to_uint32_small by lia. exact Hcc.
Qed.

Lemma UpdateTF_compare_truncates_witness :
  (exists c,
     compare_ticks 13635 (pulsefraction (g after_setup)) = Some c /\
     c = Qfloor (F2Q (f32_mul (f32_of_int 13635) (pulsefraction (g after_setup)))) /\
     Qfloor (inject_Z 13635 * F2Q (pulsefraction (g after_setup))) <= c /\
     c <= Qceiling (inject_Z 13635 * F2Q (pulsefraction (g after_setup))) /\
     0 <= c <= 13635) /\
  (exists s',
     UpdateTF 880 after_setup = Some s' /\
     compare_ticks (TCTOP (g s')) (pulsefraction (g after_setup))
     = Some (regs (hw s') TCC2_CC0)).
Proof.
  assert (HTF : 0 < 880 < 2 ^ 16) by lia.
  assert (Hpf : frac01 (pulsefraction (g after_setup)) = true)
    by (vm_compute; reflexivity).
  assert (Htop : 0 <= 13635 < 2 ^ 16) by lia.
  destruct (UpdateTF_compare_truncates 880 after_setup 13635 HTF Hpf Htop)
    as (H1 & H2 & _).
  split; [exact H1 | exact H2].
Defined.

(** C5 (as stated) fails: with periodTicks 13635 and pulseFraction 0.5
    the compare register receives 6817, where rounding gives 6818. *)
Lemma compare_13635_half_is_6817 :
  exists s',
    loop_body 0 (mkInputs 2000 1 1 1023 880) after_setup = Some s' /\
    TCTOP (g s') = 13635 /\
    (F2Q (pulsefraction (g s')) == 1 # 2)%Q /\
    regs (hw s') TCC2_CC0 = 6817 /\
    spec_compareTicks (TCTOP (g s')) (F2Q (pulsefraction (g s'))) = 6818.
Proof.
  destruct (loop_body 0 (mkInputs 2000 1 1 1023 880) after_setup)
    as [s' |] eqn:E; [| vm_compute in E; discriminate E].
  exists s'. split; [reflexivity|].
  vm_compute in E. injection E as <-.
  repeat split; vm_compute; reflexivity.
Qed.

(** * Harmonic volume *)

(** C6 (as amended). Each pass recomputes harmonicVolume as the integer
    part of the single-precision product volume x harmonicRatio: the
    fraction is dropped by the cast [(int)], nothing is rounded to
    nearest.  For every volume below 2^16 and every harmonic ratio in
    [0, 1] the value is defined, lies between the integer parts below
    and above the exact product and never exceeds the volume. *)
Theorem loop_harmonic_volume_truncates i inp s vol hr :
  wf (g s) -> wf_inputs inp -> 0 <= i < 1000 ->
  0 < deadband (readTF (g s)) (A0 inp) + i * 6 ->
  0 <= vol < 2 ^ 16 -> frac01 hr = true ->
  (exists c,
     VOL_harmonic_of vol hr = Some c /\
     c = Qfloor (F2Q (f32_mul (f32_of_int vol) hr)) /\
     Qfloor (inject_Z vol * F2Q hr) <= c /\
     c <= Qceiling (inject_Z vol * F2Q hr) /\
     0 <= c <= vol) /\
  (exists s',
     loop_body i inp s = Some s' /\
     VOL_harmonic_of (VOL (g s')) (harmonic_ratio (g s'))
     = Some (VOL_harmonic (g s')) /\
     VOL_harmonic (g s')
     = Qfloor (F2Q (f32_mul (f32_of_int (VOL (g s'))) (harmonic_ratio (g s')))) /\
     0 <= VOL (g s') < 2 ^ 16 /\
     frac01 (harmonic_ratio (g s')) = true).
Proof.
  intros Hwf Hin Hi Hnz Hvol Hhr. split.
  - destruct (VOL_harmonic_of_bounds vol hr Hvol Hhr)
      as (c & Hc & Hq & [Hlo Hhi] & Hb).
    exists c. repeat split; try assumption; lia.
  - destruct (loop_body_defined i inp s Hwf Hin Hi Hnz) as (s' & Hs' & Hwf').
    exists s'. split; [exact Hs'|].
    destruct (loop_volume_bounds i inp s s' Hs' Hwf Hin Hi) as [Hv Hv'].
    destruct Hwf' as [D3 _ _ _ Hc2 _].
    apply loop_body_inv in Hs'. destruct Hs' as (t & cc & H).
    decompose [and] H. clear H.
    assert (Hdiv : 0 <= i / 2) by (apply Z.div_pos; lia).
    assert (Hfr : frac01 (harmonic_ratio (g s')) = true).
    { match goal with HF : harmonic_ratio (g s') = _ |- _ => rewrite HF end.
      now apply harmonic_ratio_frac01. }
    assert (Hrange : 0 <= VOL (g s') < 2 ^ 16) by lia.
    destruct (VOL_harmonic_of_bounds _ _ Hrange Hfr) as (h & Hh & Hq & _).
    match goal with
    | HH : VOL_harmonic_of _ _ = Some (VOL_harmonic (g s')) |- _ =>
        rewrite HH in Hh; injection Hh as Hh
    end.
    repeat split; try assumption; lia.
Qed.

Lemma loop_harmonic_volume_truncates_witness :
  (exists c,
     VOL_harmonic_of 499 (f32_of_f64 (f64_lit 15 100)) = Some c /\
     c = Qfloor (F2Q (f32_mul (f32_of_int 499) (f32_of_f64 (f64_lit 15 100)))) /\
     Qfloor (inject_Z 499 * F2Q (f32_of_f64 (f64_lit 15 100))) <= c /\
     c <= Qceiling (inject_Z 499 * F2Q (f32_of_f64 (f64_lit 15 100))) /\
     0 <= c <= 499) /\
  (exists s',
     loop_body 0 (mkInputs 2000 707 600 1 440) after_setup = Some s' /\
     VOL_harmonic_of (VOL (g s')) (harmonic_ratio (g s'))
     = Some (VOL_harmonic (g s')) /\
     VOL_harmonic (g s')
     = Qfloor (F2Q (f32_mul (f32_of_int (VOL (g s'))) (harmonic_ratio (g s')))) /\
     0 <= VOL (g s') < 2 ^ 16 /\
     frac01 (harmonic_ratio (g s')) = true).
Proof.
  assert (Hin : wf_inputs (mkInputs 2000 707 600 1 440))
    by (constructor; cbn; unfold adc, ADCmax; lia).
  assert (Hi : 0 <= 0 < 1000) by lia.
  assert (Hnz : 0 < deadband (readTF (g after_setup))
                      (A0 (mkInputs 2000 707 600 1 440)) + 0 * 6)
    by (vm_compute; reflexivity).
  assert (Hvol : 0 <= 499 < 2 ^ 16) by lia.
  assert (Hhr : frac01 (f32_of_f64 (f64_lit 15 100)) = true)
    by (vm_compute; reflexivity).
  exact (loop_harmonic_volume_truncates 0 (mkInputs 2000 707 600 1 440)
           after_setup 499 (f32_of_f64 (f64_lit 15 100))
           after_setup_wf Hin Hi Hnz Hvol Hhr).
Defined.

(** C6 (as stated) fails: with volume 293 and a harmonic ratio near
    0.1728 the product is about 50.62; the pass stores 50, where rounding
    gives 51. *)
Lemma harmonic_volume_is_not_rounded :
  exists s',
    loop_body 0 (mkInputs 2000 707 600 1 440) after_setup = Some s' /\
    VOL (g s') = 293 /\
    VOL_harmonic (g s') = 50 /\
    spec_harmonicVolume (VOL (g s')) (F2Q (harmonic_ratio (g s'))) = 51.
Proof.
  destruct (loop_body 0 (mkInputs 2000 707 600 1 440) after_setup)
    as [s' |] eqn:E; [| vm_compute in E; discriminate E].
  exists s'. split; [reflexivity|].
  vm_compute in E. injection E as <-.
  repeat split; vm_compute; reflexivity.
Qed.

(** * The low-frequency oscillator's scale *)

Lemma shiftl_pred a n : 0 <= a -> Z.shiftl a (n - 1) = Z.shiftl a n / 2.
Proof.
  intros Ha. destruct (Z_le_gt_dec n 0) as [Hn | Hn].
  - rewrite !Z.shiftl_div_pow2 by lia.
    replace (- (n - 1)) with (- n + 1) by lia.
    rewrite Z.pow_add_r, Z.pow_1_r by lia.
    assert (0 < 2 ^ (- n)) by (apply Z.pow_pos_nonneg; lia).
    rewrite Z.div_div by lia. reflexivity.
  - rewrite !Z.shiftl_mul_pow2 by lia.
    replace n with (n - 1 + 1) at 2 by lia.
    rewrite Z.pow_add_r, Z.pow_1_r by lia.
    rewrite Z.mul_assoc, Z.div_mul by lia. reflexivity.
Qed.

Lemma trunc_half_of x c :
  match x with
  | S754_zero _ | S754_finite false _ _ => True
  | _ => False
  end ->
  trunc x = Some c -> trunc (half_of x) = Some (c / 2).
Proof.
  destruct x as [s | s | | [|] m e]; cbn [trunc half_of cond_Zopp];
    try contradiction; intros _ [= <-].
  - reflexivity.
  - now rewrite shiftl_pred by lia.
Qed.

Lemma F2Q_half m p p' :
  Zpos p' = Zpos p + 1 ->
  (F2Q (S754_finite false m (Zneg p'))
   == F2Q (S754_finite false m (Zneg p)) * (1 # 2))%Q.
Proof.
  intros Hp. cbn [F2Q cond_Zopp]. unfold Qeq, Qmult. cbn [Qnum Qden].
  rewrite Pos2Z.inj_mul, !Pos2Z.inj_pow, Hp.
  rewrite Z.pow_add_r, Z.pow_1_r by lia. ring.
Qed.

(** A product of non-negative operands carries no negative sign. *)
Lemma f32_mul_int_sign top m e :
  0 <= top < 2 ^ 24 ->
  match f32_mul (f32_of_int top) (S754_finite false m e) with
  | S754_finite true _ _ => False
  | _ => True
  end.
Proof.
  intros Htop. unfold f32_mul, f32_of_int.
  destruct (Z.eq_dec top 0) as [-> | Hn]; [exact I|].
  destruct (binary_normalize_int 24 128 ltac:(lia) ltac:(lia) top)
    as (mx & ex & -> & _); [lia|].
  cbn [SFmul xorb].
  destruct (binary_round_aux_exact 24 128 false (Z.pos (mx * m)) (ex + e)
              ltac:(lia)) as (k1 & m1 & k2 & _ & _ & _ & _ & ->).
  unfold result_of. destruct (m1 / 2 ^ k2); try exact I.
  destruct (_ <=? _); exact I.
Qed.

(** Halving the second operand halves the integer part of the product,
    the odd unit being dropped. *)
Lemma compare_ticks_half top pf pf' :
  0 <= top < 2 ^ 16 -> frac01 pf = true -> halved pf pf' = true ->
  exists c, compare_ticks top pf = Some c /\
            compare_ticks top pf' = Some (c / 2).
Proof.
  intros Htop Hpf Hh.
  destruct (compare_ticks_bounds top pf Htop Hpf) as (c & Hc & _ & _ & Hb).
  exists c. split; [exact Hc|].
  assert (Hc2 : 0 <= c / 2 <= c) by (Z.div_mod_to_equations; lia).
  unfold compare_ticks in *. apply int_of_float_inv in Hc.
  apply int_of_float_trunc; [| lia].
  destruct pf as [s | s | | [|] m e]; try discriminate Hpf;
    destruct pf' as [s' | s' | | [|] m' e']; try discriminate Hh.
  - (* both zero *)
    destruct (f32_of_int top) as [sx | sx | | sx mx ex];
      cbn [f32_mul SFmul trunc] in *; try discriminate Hc;
      injection Hc as <-; reflexivity.
  - cbn [halved] in Hh.
    apply andb_true_iff in Hh. destruct Hh as [Hh Hexp].
    apply andb_true_iff in Hh. destruct Hh as [Hm He].
    apply Z.eqb_eq in Hm, He. apply Z.leb_le in Hexp.
    injection Hm as <-. subst e'.
    assert (Hx : emin 24 128
                 < match f32_of_int top with
                   | S754_finite _ _ ex => ex + e
                   | _ => e
                   end).
    { unfold emin. destruct (Z.eq_dec top 0) as [-> | Hn].
      - cbn. lia.
      - unfold f32_of_int.
        destruct (binary_normalize_int 24 128 ltac:(lia) ltac:(lia) top)
          as (mx & ex & -> & Hex & _); lia. }
    pose proof (SFmul_half 24 128 (f32_of_int top) m e Hx) as Hhalf.
    pose proof (f32_mul_int_sign top m e ltac:(lia)) as Hsign.
    unfold f32_mul in *.
    destruct (SFmul 24 128 (f32_of_int top) (S754_finite false m e))
      as [sr | sr | | [|] mr er]; try discriminate Hc; try contradiction;
      rewrite Hhalf; now apply trunc_half_of.
Qed.

Lemma halved_F2Q pf pf' :
  frac01 pf = true -> frac01 pf' = true -> halved pf pf' = true ->
  (F2Q pf' == F2Q pf * (1 # 2))%Q.
Proof.
  intros H1 H2 Hh.
  destruct pf as [s | s | | [|] m [| p | p]]; try discriminate H1;
    destruct pf' as [s' | s' | | [|] m' [| p' | p']];
    try discriminate H2; try discriminate Hh.
  - reflexivity.
  - cbn [halved] in Hh.
    apply andb_true_iff in Hh. destruct Hh as [Hh _].
    apply andb_true_iff in Hh. destruct Hh as [Hm He].
    apply Z.eqb_eq in Hm, He. injection Hm as <-.
    apply F2Q_half. lia.
Qed.

(** C9. For every period and every reading of the pulse-fraction
    channel, switching the LFO scale from 1.0 to 0.5 makes the pulse
    fraction exactly half of what it was and makes compareTicks half of
    what it was, as an integer (the odd unit is dropped); the period
    written by [UpdateTF] is the same in both cases. *)
Theorem LFO_halves_compare newTF r s1 s2 :
  0 < newTF < 2 ^ 16 -> adc r ->
  pulsefraction (g s1) = pulsefraction_of r (LFOvalue_of true) ->
  pulsefraction (g s2) = pulsefraction_of r (LFOvalue_of false) ->
  (F2Q (LFOvalue_of true) == 1)%Q /\
  (F2Q (LFOvalue_of false) == 1 # 2)%Q /\
  (F2Q (pulsefraction (g s2)) == F2Q (pulsefraction (g s1)) * (1 # 2))%Q /\
  (forall top, 0 <= top < 2 ^ 16 ->
     exists c,
       compare_ticks top (pulsefraction (g s1)) = Some c /\
       compare_ticks top (pulsefraction (g s2)) = Some (c / 2)) /\
  exists s1' s2',
    UpdateTF newTF s1 = Some s1' /\
    UpdateTF newTF s2 = Some s2' /\
    regs (hw s2') TCC2_PER = regs (hw s1') TCC2_PER /\
    regs (hw s2') TCC2_CC0 = regs (hw s1') TCC2_CC0 / 2.
Proof.
  intros HTF Hr E1 E2.
  pose proof (pulsefraction_frac01 r true Hr) as F1.
  pose proof (pulsefraction_frac01 r false Hr) as F2.
  pose proof (pulsefraction_halved r Hr) as Hh.
  rewrite <- E1 in F1, Hh. rewrite <- E2 in F2, Hh.
  split; [vm_compute; reflexivity|].
  split; [vm_compute; reflexivity|].
  split; [now apply halved_F2Q|].
  split.
  - intros top Htop. now apply compare_ticks_half.
  - destruct (UpdateTF_spec newTF s1 HTF F1) as (c1 & Hc1 & Hb1 & ->).
    destruct (UpdateTF_spec newTF s2 HTF F2) as (c2 & Hc2 & Hb2 & ->).
    pose proof (to_uint16_range (GCLK8_Hz / newTF - 1)) as Hr16.
    destruct (compare_ticks_half _ _ _ Hr16 F1 Hh) as (c & Hc & Hc').
    rewrite Hc in Hc1. injection Hc1 as <-.
    rewrite Hc' in Hc2. injection Hc2 as <-.
    do 2 eexists. split; [reflexivity|]. split; [reflexivity|].
    proj_simpl. cbn [reg_eqb].
    split; [reflexivity|].
    rewrite !to_uint32_small by lia. reflexivity.
Qed.

Lemma LFO_halves_compare_witness :
  exists c,
    compare_ticks 13635 (pulsefraction_of 1023 (LFOvalue_of true)) = Some c /\
    compare_ticks 13635 (pulsefraction_of 1023 (LFOvalue_of false))
    = Some (c / 2).
Proof.
  assert (HTF : 0 < 880 < 2 ^ 16) by lia.
  assert (Hr : adc 1023) by (unfold adc, ADCmax; lia).
  assert (Htop : 0 <= 13635 < 2 ^ 16) by lia.
  set (s1 := mkState (mkGlobals 499 (f32_of_f64 (f64_lit 15 100)) 74 880
                        13635 13635 (pulsefraction_of 1023 (LFOvalue_of true))
                        true 1 1 1023 880 true (LFOvalue_of true)
                        1000 1 1 0 0) (hw after_setup)).
  set (s2 := mkState (mkGlobals 499 (f32_of_f64 (f64_lit 15 100)) 74 880
                        13635 13635 (pulsefraction_of 1023 (LFOvalue_of false))
                        true 1 1 1023 880 false (LFOvalue_of false)
                        1000 1 1 0 0) (hw after_setup)).
  destruct (LFO_halves_compare 880 1023 s1 s2 HTF Hr eq_refl eq_refl)
    as (_ & _ & _ & H & _).
  exact (H 13635 Htop).
Defined.

(** * Further properties of the harmonics sketch *)

Lemma upto_length n : forall z, length (upto n z) = n.
Proof. induction n as [| n IH]; intros z; cbn [upto length]; auto. Qed.

Lemma loop_from_defined inps :
  forall i s,
    wf (g s) -> Forall wf_inputs inps ->
    1 <= i -> i + Z.of_nat (length inps) <= 1000 ->
    exists s', loop_from i inps s = Some s' /\ wf (g s').
Proof.
  induction inps as [| inp rest IH]; intros i s Hwf Hall Hi Hlen.
  - exists s. now split.
  - inversion Hall as [| ? ? Hinp Hrest]; subst.
    cbn [length] in Hlen. rewrite Nat2Z.inj_succ in Hlen.
    destruct (loop_body_defined i inp s Hwf Hinp) as (s1 & E & Hwf1).
    + lia.
    + pose proof (deadband_adc _ _ (wf_readTF _ Hwf) (wf_A0 _ Hinp)) as [H0 _].
      lia.
    + cbn [loop_from]. rewrite E. apply IH; try assumption; lia.
Qed.

(** X1. Run from a well-formed state on ADC readings, the thousand
    passes of [loop()] have a defined outcome exactly when the filtered
    pitch reading of the first pass is not 0 (then TF is 0 and
    [UpdateTF] divides by zero); the outcome is again well formed. *)
Theorem loop_defined_iff env s :
  wf (g s) -> (forall i, wf_inputs (env i)) ->
  (deadband (readTF (g s)) (A0 (env 0)) = 0 -> loop env s = None) /\
  (deadband (readTF (g s)) (A0 (env 0)) <> 0 ->
   exists s', loop env s = Some s' /\ wf (g s')).
Proof.
  intros Hwf Henv. unfold loop.
  change (upto 1000 0) with (0 :: upto 999 1).
  cbn [map loop_from]. split.
  - intros Hz. now rewrite (loop_body_zero_frequency (env 0) s Hwf Hz).
  - intros Hnz.
    pose proof (deadband_adc _ _ (wf_readTF _ Hwf) (wf_A0 _ (Henv 0))) as [H0 _].
    destruct (loop_body_defined 0 (env 0) s Hwf (Henv 0)) as (s1 & E & Hwf1);
      [lia | lia |].
    rewrite E. apply loop_from_defined; try assumption; try lia.
    + apply Forall_forall. intros x Hx. apply in_map_iff in Hx.
      destruct Hx as (i & <- & _). apply Henv.
    + rewrite length_map, upto_length. lia.
Qed.

Lemma loop_defined_iff_witness :
  exists s', loop (fun _ => mkInputs 1100 1 1 1 440) after_setup = Some s' /\
             wf (g s').
Proof.
  assert (Henv : forall i : Z, wf_inputs ((fun _ => mkInputs 1100 1 1 1 440) i))
    by (intros i; constructor; cbn; unfold adc, ADCmax; lia).
  assert (Hnz : deadband (readTF (g after_setup))
                  (A0 ((fun _ : Z => mkInputs 1100 1 1 1 440) 0)) <> 0)
    by (vm_compute; lia).
  exact (proj2 (loop_defined_iff (fun _ => mkInputs 1100 1 1 1 440)
                  after_setup after_setup_wf Henv) Hnz).
Defined.

(** X2. On ADC readings every pass leaves
    0 <= VOL_harmonic <= VOL <= 500 - i/2; so from the third pass of a
    [loop()] on (i >= 2) the volume is within the carrier's TOP 499. *)
Theorem loop_volumes_ordered i inp s :
  wf (g s) -> wf_inputs inp -> 0 <= i < 1000 ->
  0 < deadband (readTF (g s)) (A0 inp) + i * 6 ->
  exists s',
    loop_body i inp s = Some s' /\
    0 <= VOL_harmonic (g s') <= VOL (g s') /\
    VOL (g s') <= 500 - i / 2 /\
    (2 <= i -> VOL (g s') <= carrierTop).
Proof.
  intros Hwf Hin Hi Hnz.
  destruct (loop_body_defined i inp s Hwf Hin Hi Hnz) as (s' & E & _).
  exists s'. split; [exact E|].
  destruct (loop_volume_bounds i inp s s' E Hwf Hin Hi) as [Hh Hv].
  split; [exact Hh|]. split; [exact Hv|].
  intros Hi2. assert (1 <= i / 2) by (apply Z.div_le_lower_bound; lia).
  unfold carrierTop. lia.
Qed.

Lemma loop_volumes_ordered_witness :
  exists s',
    loop_body 7 (mkInputs 1100 700 1023 512 440) after_setup = Some s' /\
    0 <= VOL_harmonic (g s') <= VOL (g s') /\
    VOL (g s') <= 500 - 7 / 2 /\
    (2 <= 7 -> VOL (g s') <= carrierTop).
Proof.
  assert (Hin : wf_inputs (mkInputs 1100 700 1023 512 440))
    by (constructor; cbn; unfold adc, ADCmax; lia).
  assert (Hi : 0 <= 7 < 1000) by lia.
  assert (Hnz : 0 < deadband (readTF (g after_setup))
                      (A0 (mkInputs 1100 700 1023 512 440)) + 7 * 6)
    by (vm_compute; reflexivity).
  exact (loop_volumes_ordered 7 (mkInputs 1100 700 1023 512 440) after_setup
           after_setup_wf Hin Hi Hnz).
Defined.

(** X3. On ADC readings every pass leaves TCC2 programmed with
    0 <= CC[0] <= PER <= 65535: the match never lies beyond the
    period. *)
Theorem pass_compare_within_period i inp s :
  wf (g s) -> wf_inputs inp -> 0 <= i < 1000 ->
  0 < deadband (readTF (g s)) (A0 inp) + i * 6 ->
  exists s',
    loop_body i inp s = Some s' /\
    0 <= regs (hw s') TCC2_CC0 <= regs (hw s') TCC2_PER /\
    regs (hw s') TCC2_PER < 2 ^ 16 /\
    regs (hw s') TCC2_PER = TCTOP (g s').
Proof.
  intros Hwf Hin Hi Hnz.
  destruct (loop_body_defined i inp s Hwf Hin Hi Hnz) as (s' & E & Hwf').
  exists s'. split; [exact E|].
  apply loop_body_inv in E. destruct E as (t & cc & H).
  decompose [and] H. clear H.
  assert (Hr : 0 <= TCTOP (g s') < 2 ^ 16).
  { match goal with HT : TCTOP (g s') = _ |- _ => rewrite HT end.
    apply to_uint16_range. }
  assert (Hpf : frac01 (pulsefraction (g s')) = true).
  { match goal with HP : pulsefraction (g s') = _ |- _ => rewrite HP end.
    apply pulsefraction_frac01. exact (wf_readPulseFraction _ Hwf'). }
  destruct (compare_ticks_bounds _ _ Hr Hpf) as (c & Hc & _ & _ & Hb).
  match goal with
  | HC : compare_ticks _ _ = Some cc, Hhw : hw s' = _ |- _ =>
      rewrite HC in Hc; injection Hc as <-; rewrite Hhw
  end.
  rewrite store_same.
  rewrite (store_other TCC2_CC0 TCC2_PER) by discriminate.
  rewrite store_same, !to_uint32_small by lia. lia.
Qed.

Lemma pass_compare_within_period_witness :
  exists s',
    loop_body 0 (mkInputs 1100 700 1023 512 440) after_setup = Some s' /\
    0 <= regs (hw s') TCC2_CC0 <= regs (hw s') TCC2_PER /\
    regs (hw s') TCC2_PER < 2 ^ 16 /\
    regs (hw s') TCC2_PER = TCTOP (g s').
Proof.
  assert (Hin : wf_inputs (mkInputs 1100 700 1023 512 440))
    by (constructor; cbn; unfold adc, ADCmax; lia).
  assert (Hi : 0 <= 0 < 1000) by lia.
  assert (Hnz : 0 < deadband (readTF (g after_setup))
                      (A0 (mkInputs 1100 700 1023 512 440)) + 0 * 6)
    by (vm_compute; reflexivity).
  exact (pass_compare_within_period 0 (mkInputs 1100 700 1023 512 440)
           after_setup after_setup_wf Hin Hi Hnz).
Defined.

(** X4. In any interleaving that starts with [harmonic] set, the
    overflow handler stores the harmonic volume when the number of
    earlier overflows is even and the full volume when it is odd (the
    values the globals hold at that moment, as unsigned words); the
    match handler stores 0.  Each handler clears its flag, so entering
    it again without a new event changes nothing. *)
Theorem overflow_duty_alternates es s s1 :
  harmonic (g s) = true ->
  run es s = Some s1 ->
  regs (hw (overflow_event s1)) TCC1_CC0
  = to_uint32 (if Nat.even (overflows es)
               then VOL_harmonic (g s1) else VOL (g s1)) /\
  regs (hw (compare_event s1)) TCC1_CC0 = 0 /\
  TCC2_0_Handler (overflow_event s1) = overflow_event s1 /\
  TCC2_1_Handler (compare_event s1) = compare_event s1 /\
  g (compare_event s1) = g s1.
Proof.
  intros H0 Hrun.
  pose proof (run_harmonic es s s1 Hrun) as Hh. rewrite H0 in Hh.
  unfold overflow_event, compare_event, TCC2_0_Handler, TCC2_1_Handler.
  cbn [hw g raise_OVF raise_MC0 INTFLAG_OVF INTFLAG_MC0].
  rewrite Hh.
  destruct (Nat.even (overflows es)); cbn [negb hw g store clear_OVF
    clear_MC0 INTFLAG_OVF INTFLAG_MC0 regs reg_eqb]; repeat split.
Qed.

Lemma overflow_duty_alternates_witness :
  exists s1,
    run [Overflow; Compare; Pass 0 (mkInputs 1100 700 1023 512 440); Overflow]
      after_setup = Some s1 /\
    regs (hw (overflow_event s1)) TCC1_CC0 = to_uint32 (VOL_harmonic (g s1)) /\
    regs (hw (compare_event s1)) TCC1_CC0 = 0.
Proof.
  destruct (run [Overflow; Compare; Pass 0 (mkInputs 1100 700 1023 512 440);
                 Overflow] after_setup)
    as [s1 |] eqn:E; [| vm_compute in E; discriminate E].
  exists s1. split; [reflexivity|].
  assert (H0 : harmonic (g after_setup) = true) by reflexivity.
  destruct (overflow_duty_alternates _ _ _ H0 E) as (H1 & H2 & _).
  split; [exact H1 | exact H2].
Defined.

Lemma iter_store_stores r v p n :
  stores (Nat.iter n (store r v) p) = repeat (r, to_uint32 v) n ++ stores p.
Proof.
  induction n as [| n IH]; [reflexivity|].
  cbn [Nat.iter nat_rect repeat app]. cbn [store stores].
  f_equal. exact IH.
Qed.

(** X5. [setup] stores 499 to the carrier's period register once for
    each time the busy bit of the WAVE write was seen set, because the
    wait loop before it has no semicolon: if the bit has already
    cleared, TCC1->PER is not written at all and keeps what it held.
    The other three registers and the globals do not depend on the
    state at boot. *)
Theorem setup_period_store_is_loop_body boot wave_busy now :
  exists s0,
    setup boot wave_busy now = Some s0 /\
    stores (hw s0)
    = [(TCC2_CC0, 8181); (TCC2_PER, 13635); (TCC1_CC0, 499)]
      ++ repeat (TCC1_PER, 499) wave_busy ++ stores boot /\
    regs (hw s0) TCC1_PER
    = match wave_busy with O => regs boot TCC1_PER | S _ => 499 end /\
    regs (hw s0) TCC1_CC0 = 499 /\
    regs (hw s0) TCC2_PER = 13635 /\
    regs (hw s0) TCC2_CC0 = 8181 /\
    g s0 = set_time1 (to_int32 now) (g after_setup).
Proof.
  unfold setup.
  assert (Hg : initial_globals = Some (set_time1 1 (g after_setup)))
    by (vm_compute; reflexivity).
  rewrite Hg.
  change (VOL (set_time1 1 (g after_setup))) with 499.
  change (TCTOP (set_time1 1 (g after_setup))) with 13635.
  change (pulsefraction (set_time1 1 (g after_setup)))
    with (f32_of_f64 (f64_lit 6 10)).
  assert (Hcc : uint32_of_float
                  (f32_mul (f32_of_int 13635) (f32_of_f64 (f64_lit 6 10)))
                = Some 8181) by (vm_compute; reflexivity).
  rewrite Hcc. eexists. split; [reflexivity|].
  cbn [hw g]. split.
  - cbn [store stores]. rewrite iter_store_stores. reflexivity.
  - split.
    + rewrite (store_other TCC2_CC0 TCC1_PER) by discriminate.
      rewrite (store_other TCC2_PER TCC1_PER) by discriminate.
      rewrite (store_other TCC1_CC0 TCC1_PER) by discriminate.
      rewrite iter_store. destruct wave_busy; reflexivity.
    + repeat split.
Qed.

(** X6. The LFO's half-period [LFOtime], in microseconds, is defined for
    every reading of the pulse-fraction channel, is 0 for reading 0 and
    600000 for 1023, is within one microsecond of 600000 r / 1023, and
    grows strictly with the reading. *)
Theorem LFOtime_range r r' :
  adc r -> adc r' ->
  exists t t',
    LFOtime_of r = Some t /\ LFOtime_of r' = Some t' /\
    0 <= t <= 600000 /\
    Z.abs (t - 600000 * r / 1023) <= 1 /\
    (r < r' -> t < t') /\
    LFOtime_of 0 = Some 0 /\ LFOtime_of 1023 = Some 600000.
Proof.
  assert (Hall : forall x, adc x ->
            exists t, LFOtime_of x = Some t /\ 0 <= t <= 600000 /\
                      Z.abs (t - 600000 * x / 1023) <= 1).
  { intros x Hx.
    assert (H : (fun x => match LFOtime_of x with
                          | Some t => (0 <=? t) && (t <=? 600000)
                                      && (Z.abs (t - 600000 * x / 1023) <=? 1)
                          | None => false
                          end) x = true).
    { revert x Hx. apply adc_check. vm_compute. reflexivity. }
    cbv beta in H. destruct (LFOtime_of x) as [t |]; [| discriminate].
    exists t. apply andb_true_iff in H. destruct H as [H H3].
    apply andb_true_iff in H. destruct H as [H1 H2].
    apply Z.leb_le in H1, H2, H3. auto. }
  intros Hr Hr'.
  destruct (Hall r Hr) as (t & Ht & Hb & Hc).
  destruct (Hall r' Hr') as (t' & Ht' & Hb' & Hc').
  exists t, t'. repeat split; try assumption; try lia;
    try (vm_compute; reflexivity).
  intros Hlt.
  assert (600000 * r / 1023 + 586 <= 600000 * r' / 1023).
  { assert (600000 * r / 1023 + 586 = (600000 * r + 586 * 1023) / 1023)
      by (rewrite Z.div_add by lia; reflexivity).
    assert ((600000 * r + 586 * 1023) / 1023 <= 600000 * r' / 1023)
      by (apply Z.div_le_mono; lia).
    lia. }
  lia.
Qed.

Lemma LFOtime_range_witness :
  exists t t',
    LFOtime_of 1 = Some t /\ LFOtime_of 512 = Some t' /\
    0 <= t <= 600000 /\
    Z.abs (t - 600000 * 1 / 1023) <= 1 /\
    (1 < 512 -> t < t') /\
    LFOtime_of 0 = Some 0 /\ LFOtime_of 1023 = Some 600000.
Proof.
  assert (H1 : adc 1) by (unfold adc, ADCmax; lia).
  assert (H2 : adc 512) by (unfold adc, ADCmax; lia).
  exact (LFOtime_range 1 512 H1 H2).
Defined.

Lemma loop_body_times i inp s s' :
  loop_body i inp s = Some s' ->
  exists t,
    LFOtime_of (readPulseFraction (g s)) = Some t /\
    time2 (g s') = to_int32 (micros inp) /\
    time3 (g s') = to_int32 (to_int32 (micros inp) - time1 (g s)) /\
    time1 (g s') = (if t <=? time3 (g s') then time2 (g s') else time1 (g s)) /\
    LFO (g s') = (if t <=? time3 (g s') then negb (LFO (g s)) else LFO (g s)) /\
    count2 (g s') =
      (if t <=? time3 (g s')
       then (if to_int32 (count2 (g s) + 1) =? 5
             then 0 else to_int32 (count2 (g s) + 1))
       else count2 (g s)).
Proof.
  unfold loop_body.
  destruct (LFOtime_of (readPulseFraction (g s))) as [t |]; [| discriminate].
  destruct (VOL_of _ i) as [VOL' |]; [| discriminate].
  destruct (VOL_harmonic_of VOL' _) as [VH' |]; [| discriminate].
  intros H. apply UpdateTF_inv in H. destruct H as [_ (cc & _ & ->)].
  proj_simpl. exists t. repeat split.
Qed.

Lemma elapsed_wraps prev d :
  0 <= d < 2 ^ 31 ->
  to_int32 (to_int32 ((prev + d) mod 2 ^ 32) - to_int32 prev) = d /\
  to_int32 ((prev + d) mod 2 ^ 32) = to_int32 (prev + d).
Proof.
  intros Hd. unfold to_int32.
  change (2 ^ 32) with 4294967296. change (2 ^ 31) with 2147483648 in *.
  Z.div_mod_to_equations. lia.
Qed.

(** X7. The LFO is timed on elapsed microseconds, with the clock's
    wrap-around taken in: if [time1] holds the clock value [prev]
    (as a 32-bit word) and the clock has advanced by d < 2^31 since,
    whether or not [micros()] rolled over in between, a pass measures
    [time3] = d; when d has reached [LFOtime] it flips [LFO], restarts
    the measurement from the present clock and advances [count2]
    cyclically through 0..4, otherwise it leaves all three alone. *)
Theorem LFO_toggles_on_elapsed_time i inp s s' prev d :
  loop_body i inp s = Some s' ->
  0 <= count2 (g s) <= 4 ->
  time1 (g s) = to_int32 prev ->
  0 <= d < 2 ^ 31 ->
  micros inp = (prev + d) mod 2 ^ 32 ->
  exists t,
    LFOtime_of (readPulseFraction (g s)) = Some t /\
    time3 (g s') = d /\
    (t <= d ->
     LFO (g s') = negb (LFO (g s)) /\
     time1 (g s') = to_int32 (prev + d) /\
     count2 (g s') = (count2 (g s) + 1) mod 5) /\
    (d < t ->
     LFO (g s') = LFO (g s) /\
     time1 (g s') = time1 (g s) /\
     count2 (g s') = count2 (g s)).
Proof.
  intros H Hc H1 Hd Hm.
  destruct (loop_body_times i inp s s' H) as (t & Ht & H2 & H3 & H1' & HL & HC).
  destruct (elapsed_wraps prev d Hd) as [He He'].
  rewrite Hm, H1, He in H3. rewrite Hm, He' in H2.
  rewrite H3, H2 in H1'. rewrite H3 in HL, HC.
  exists t. split; [exact Ht|]. split; [exact H3|]. split.
  - intros Hle. destruct (Z.leb_spec t d); [| lia].
    split; [exact HL|]. split; [exact H1'|].
    rewrite HC, to_int32_small by lia.
    destruct (Z.eqb_spec (count2 (g s) + 1) 5) as [E | E].
    + rewrite E. reflexivity.
    + rewrite Z.mod_small by lia. reflexivity.
  - intros Hlt. destruct (Z.leb_spec t d); [lia|]. auto.
Qed.

Lemma LFO_toggles_on_elapsed_time_witness :
  exists s' t,
    loop_body 0 (mkInputs 500 1 1 1 440)
      (mkState (set_time1 (to_int32 4294967000) (g after_setup))
         (hw after_setup)) = Some s' /\
    LFOtime_of 1 = Some t /\
    time3 (g s') = 796.
Proof.
  destruct (loop_body 0 (mkInputs 500 1 1 1 440)
              (mkState (set_time1 (to_int32 4294967000) (g after_setup))
                 (hw after_setup)))
    as [s' |] eqn:E; [| vm_compute in E; discriminate E].
  assert (Hc : 0 <= count2 (g (mkState (set_time1 (to_int32 4294967000)
                                          (g after_setup)) (hw after_setup)))
               <= 4) by (cbn; lia).
  assert (Hd : 0 <= 796 < 2 ^ 31) by lia.
  assert (Hm : micros (mkInputs 500 1 1 1 440) = (4294967000 + 796) mod 2 ^ 32)
    by reflexivity.
  destruct (LFO_toggles_on_elapsed_time 0 _ _ s' 4294967000 796 E Hc eq_refl Hd Hm)
    as (t & Ht & H3 & _).
  exists s', t. split; [reflexivity|]. split; [exact Ht | exact H3].
Defined.

(** X8. For tone frequencies 184..65535 the period [UpdateTF] programs
    never makes the tone flat: the generated rate R / (PER + 1) is at
    least the frequency asked for, and equals it for every frequency up
    to 3464; a higher frequency never gets a longer period. *)
Theorem UpdateTF_round_trip newTF newTF' s :
  184 <= newTF -> newTF <= newTF' -> newTF' < 2 ^ 16 ->
  frac01 (pulsefraction (g s)) = true ->
  exists s1 s2,
    UpdateTF newTF s = Some s1 /\
    UpdateTF newTF' s = Some s2 /\
    regs (hw s2) TCC2_PER <= regs (hw s1) TCC2_PER /\
    newTF <= GCLK8_Hz / (regs (hw s1) TCC2_PER + 1) /\
    (newTF <= 3464 -> GCLK8_Hz / (regs (hw s1) TCC2_PER + 1) = newTF).
Proof.
  intros H1 H2 H3 Hpf.
  destruct (UpdateTF_period_general newTF s) as (s1 & E1 & _ & _ & P1 & _);
    [lia | assumption |].
  destruct (UpdateTF_period_general newTF' s) as (s2 & E2 & _ & _ & P2 & _);
    [lia | assumption |].
  exists s1, s2. split; [exact E1|]. split; [exact E2|].
  assert (Hfit : forall n, 184 <= n < 2 ^ 16 ->
                   183 <= GCLK8_Hz / n /\ GCLK8_Hz / n < 65536).
  { intros n Hn. unfold GCLK8_Hz. split.
    - apply Z.div_le_lower_bound; lia.
    - apply Z.div_lt_upper_bound; lia. }
  destruct (Hfit newTF ltac:(lia)) as [Q1 Q1'].
  destruct (Hfit newTF' ltac:(lia)) as [Q2 Q2'].
  rewrite Z.mod_small in P1, P2 by lia. rewrite P1, P2.
  replace (GCLK8_Hz / newTF - 1 + 1) with (GCLK8_Hz / newTF) by lia.
  split; [| split].
  - assert (GCLK8_Hz / newTF' <= GCLK8_Hz / newTF)
      by (apply Z.div_le_compat_l; unfold GCLK8_Hz; lia).
    lia.
  - apply Z.div_le_lower_bound; [lia|].
    rewrite Z.mul_comm. apply Z.mul_div_le. lia.
  - intros Hs. symmetry. apply Z.div_unique with (r := GCLK8_Hz mod newTF).
    + left. pose proof (Z.mod_pos_bound GCLK8_Hz newTF ltac:(lia)).
      assert (newTF <= GCLK8_Hz / newTF).
      { apply Z.div_le_lower_bound; [lia|]. unfold GCLK8_Hz. nia. }
      lia.
    + pose proof (Z.div_mod GCLK8_Hz newTF ltac:(lia)). lia.
Qed.

Lemma UpdateTF_round_trip_witness :
  exists s1 s2,
    UpdateTF 440 after_setup = Some s1 /\
    UpdateTF 880 after_setup = Some s2 /\
    regs (hw s2) TCC2_PER <= regs (hw s1) TCC2_PER /\
    440 <= GCLK8_Hz / (regs (hw s1) TCC2_PER + 1) /\
    (440 <= 3464 -> GCLK8_Hz / (regs (hw s1) TCC2_PER + 1) = 440).
Proof.
  assert (H1 : 184 <= 440) by lia.
  assert (H2 : 440 <= 880) by lia.
  assert (H3 : 880 < 2 ^ 16) by lia.
  assert (Hpf : frac01 (pulsefraction (g after_setup)) = true)
    by (vm_compute; reflexivity).
  exact (UpdateTF_round_trip 440 880 after_setup H1 H2 H3 Hpf).
Defined.

Lemma loop_body_wf i inp s s' :
  loop_body i inp s = Some s' -> wf (g s) -> wf_inputs inp -> wf (g s').
Proof.
  intros H [H1 H2 H3 H4 H5 H6] [_ I3 I4 I2 I0].
  apply loop_body_inv in H.
  destruct H as (t & cc & _ & _ & Hc & R3 & R4 & R2 & R0 & _ & _ & _ & _ & _
                 & _ & Hcount & _).
  constructor.
  - rewrite R3. now apply deadband_adc.
  - rewrite R4. now apply deadband_adc.
  - rewrite R2. now apply deadband_adc.
  - rewrite R0. now apply deadband_adc.
  - rewrite Hc. destruct (_ <=? _); [| assumption].
    rewrite to_int32_small by lia.
    destruct (Z.eqb_spec (count2 (g s) + 1) 5); lia.
  - now rewrite Hcount.
Qed.

Lemma harmonic_ratio_at_0 r :
  adc r -> harmonic_ratio_of r 0 = S754_zero false.
Proof.
  intros Hr. apply spec_float_eqb_eq. revert r Hr.
  apply (adc_check (fun r => spec_float_eqb (harmonic_ratio_of r 0)
                               (S754_zero false))).
  vm_compute. reflexivity.
Qed.

Lemma VOL_harmonic_of_zero v :
  0 <= v <= 500 -> VOL_harmonic_of v (S754_zero false) = Some 0.
Proof.
  intros Hv.
  pose (P := fun v => match VOL_harmonic_of v (S754_zero false) with
                      | Some c => c =? 0
                      | None => false
                      end).
  assert (H : P v = true)
    by (apply (upto_check P 501 0); [vm_compute; reflexivity | lia]).
  unfold P in H. clear P.
  destruct (VOL_harmonic_of v (S754_zero false)) as [c |]; [| discriminate].
  apply Z.eqb_eq in H. now subst.
Qed.

Lemma VOL_harmonic_of_one v :
  0 <= v <= 500 -> VOL_harmonic_of v (harmonic_ratio_of 1023 4) = Some v.
Proof.
  intros Hv.
  pose (P := fun v => match VOL_harmonic_of v (harmonic_ratio_of 1023 4) with
                      | Some c => c =? v
                      | None => false
                      end).
  assert (H : P v = true)
    by (apply (upto_check P 501 0); [vm_compute; reflexivity | lia]).
  unfold P in H. clear P.
  destruct (VOL_harmonic_of v (harmonic_ratio_of 1023 4)) as [c |];
    [| discriminate].
  apply Z.eqb_eq in H. now subst.
Qed.

(** X9. The harmonic's volume follows the step counter [count2]: on a
    pass that leaves [count2] at 0 the harmonic is silent
    (VOL_harmonic = 0) whatever the ratio channel reads, and on a pass
    that leaves it at 4 with the ratio channel at full scale the
    harmonic is as loud as the fundamental (VOL_harmonic = VOL). *)
Theorem harmonic_volume_follows_count2 i inp s s' :
  loop_body i inp s = Some s' ->
  wf (g s) -> wf_inputs inp -> 0 <= i < 1000 ->
  (count2 (g s') = 0 -> VOL_harmonic (g s') = 0) /\
  (count2 (g s') = 4 -> readHarmonicRatio (g s') = 1023 ->
   VOL_harmonic (g s') = VOL (g s')).
Proof.
  intros H Hwf Hin Hi.
  destruct (loop_volume_bounds i inp s s' H Hwf Hin Hi) as [Hh Hv].
  pose proof (loop_body_wf i inp s s' H Hwf Hin) as Hwf'.
  assert (Hdiv : 0 <= i / 2) by (apply Z.div_pos; lia).
  apply loop_body_inv in H.
  destruct H as (t & cc & _ & _ & _ & _ & _ & _ & _ & HR & _ & HH & _).
  rewrite HR in HH. split.
  - intros Hc. rewrite Hc in HH.
    rewrite harmonic_ratio_at_0 in HH by apply (wf_readHarmonicRatio _ Hwf').
    rewrite VOL_harmonic_of_zero in HH by lia. now injection HH.
  - intros Hc Hr. rewrite Hc, Hr in HH.
    rewrite VOL_harmonic_of_one in HH by lia. now injection HH.
Qed.

Lemma harmonic_volume_follows_count2_witness :
  exists s',
    loop_body 0 (mkInputs 1100 1 1 1 440) after_setup = Some s' /\
    VOL_harmonic (g s') = 0.
Proof.
  destruct (loop_body 0 (mkInputs 1100 1 1 1 440) after_setup)
    as [s' |] eqn:E; [| vm_compute in E; discriminate E].
  assert (Hin : wf_inputs (mkInputs 1100 1 1 1 440))
    by (constructor; cbn; unfold adc, ADCmax; lia).
  assert (Hi : 0 <= 0 < 1000) by lia.
  assert (Hc : count2 (g s') = 0)
    by (vm_compute in E; injection E as <-; reflexivity).
  exists s'. split; [reflexivity|].
  exact (proj1 (harmonic_volume_follows_count2 0 _ after_setup s' E
                  after_setup_wf Hin Hi) Hc).
Defined.

Lemma to_uint32_0_500 v : 0 <= v <= 500 -> 0 <= to_uint32 v <= 500.
Proof. intros H. rewrite to_uint32_small; lia. Qed.

Lemma step_duty_bounded e s s1 :
  step e s = Some s1 ->
  match e with
  | Pass i inp => 0 <= i < 1000 /\ wf_inputs inp
  | _ => True
  end ->
  wf (g s) /\ 0 <= VOL_harmonic (g s) <= VOL (g s) /\ VOL (g s) <= 500 /\
  0 <= regs (hw s) TCC1_CC0 <= 500 ->
  wf (g s1) /\ 0 <= VOL_harmonic (g s1) <= VOL (g s1) /\ VOL (g s1) <= 500 /\
  0 <= regs (hw s1) TCC1_CC0 <= 500.
Proof.
  intros E He (Hwf & Hh & Hv & Hr). destruct e as [| | i inp]; cbn [step] in E.
  - injection E as <-.
    unfold overflow_event, TCC2_0_Handler.
    cbn [hw g raise_OVF INTFLAG_OVF].
    destruct (harmonic (g s));
      cbn [g hw set_harmonic VOL VOL_harmonic]; rewrite store_same;
      (split; [destruct Hwf; now constructor |]);
      (split; [exact Hh |]); (split; [exact Hv |]);
      apply to_uint32_0_500; lia.
  - injection E as <-.
    unfold compare_event, TCC2_1_Handler.
    cbn [hw g raise_MC0 INTFLAG_MC0]. rewrite store_same.
    split; [exact Hwf |]. split; [exact Hh |]. split; [exact Hv |].
    vm_compute. split; discriminate.
  - destruct He as [Hi Hin].
    destruct (loop_volume_bounds i inp s s1 E Hwf Hin Hi) as [Hh1 Hv1].
    assert (Hdiv : 0 <= i / 2) by (apply Z.div_pos; lia).
    destruct (loop_body_frame i inp s s1 E) as (_ & Hreg & _).
    rewrite Hreg.
    split; [exact (loop_body_wf i inp s s1 E Hwf Hin) |].
    split; [exact Hh1 |]. split; [lia | exact Hr].
Qed.

(** X10. Over any interleaving of overflow events, match events and
    passes on ADC readings, the carrier's compare register TCC1->CC[0]
    stays within 0..500 (one above the carrier's TOP at most) and the
    globals keep 0 <= VOL_harmonic <= VOL <= 500, provided this holds
    at the start, as it does after [setup]. *)
Theorem duty_register_bounded es :
  forall s s',
    wf (g s) ->
    0 <= VOL_harmonic (g s) <= VOL (g s) -> VOL (g s) <= 500 ->
    0 <= regs (hw s) TCC1_CC0 <= 500 ->
    Forall (fun e => match e with
                     | Pass i inp => 0 <= i < 1000 /\ wf_inputs inp
                     | _ => True
                     end) es ->
    run es s = Some s' ->
    wf (g s') /\ 0 <= VOL_harmonic (g s') <= VOL (g s') /\ VOL (g s') <= 500 /\
    0 <= regs (hw s') TCC1_CC0 <= 500.
Proof.
  induction es as [| e es IH]; intros s s' Hwf Hh Hv Hr Hall Hrun;
    cbn [run] in Hrun.
  - injection Hrun as <-. auto.
  - inversion Hall as [| ? ? He Hrest]; subst.
    destruct (step e s) as [s1 |] eqn:E; [| discriminate].
    destruct (step_duty_bounded e s s1 E He) as (Hwf1 & Hh1 & Hv1 & Hr1);
      [auto |].
    exact (IH s1 s' Hwf1 Hh1 Hv1 Hr1 Hrest Hrun).
Qed.

Lemma duty_register_bounded_witness :
  exists s',
    run [Overflow; Pass 0 (mkInputs 1100 700 1023 512 440); Overflow; Compare]
      after_setup = Some s' /\
    0 <= regs (hw s') TCC1_CC0 <= 500.
Proof.
  destruct (run [Overflow; Pass 0 (mkInputs 1100 700 1023 512 440); Overflow;
                 Compare] after_setup)
    as [s' |] eqn:E; [| vm_compute in E; discriminate E].
  exists s'. split; [reflexivity|].
  assert (Hh : 0 <= VOL_harmonic (g after_setup) <= VOL (g after_setup))
    by (vm_compute; split; discriminate).
  assert (Hv : VOL (g after_setup) <= 500) by (vm_compute; discriminate).
  assert (Hr : 0 <= regs (hw after_setup) TCC1_CC0 <= 500)
    by (vm_compute; split; discriminate).
  assert (Hall : Forall (fun e => match e with
                                  | Pass i inp => 0 <= i < 1000 /\ wf_inputs inp
                                  | _ => True
                                  end)
                   [Overflow; Pass 0 (mkInputs 1100 700 1023 512 440);
                    Overflow; Compare]).
  { constructor; [exact I|]. constructor.
    - split; [lia|]. constructor; cbn; unfold adc, ADCmax; lia.
    - constructor; [exact I|]. constructor; [exact I|]. constructor. }
  exact (proj2 (proj2 (proj2 (duty_register_bounded _ after_setup s'
                                after_setup_wf Hh Hv Hr Hall E)))).
Defined.

(** * The basic sketch and the start-up period *)

Lemma match_event_fields s :
  Basic.VOL (Basic.match_event s) = Basic.VOL s /\
  Basic.TC0_CC0_reg (Basic.match_event s) = Basic.TC0_CC0_reg s /\
  Basic.TCC1_PER_reg (Basic.match_event s) = Basic.TCC1_PER_reg s /\
  Basic.INTFLAG_MC0 (Basic.match_event s) = false /\
  Basic.TCC1_CC0_reg (Basic.match_event s)
  = (if Basic.TCC1_CC0_reg s =? 0 then to_uint32 (Basic.VOL s) else 0).
Proof.
  unfold Basic.match_event, Basic.TC0_Handler.
  cbn [Basic.INTFLAG_MC0 Basic.TCC1_CC0_reg Basic.VOL Basic.TC0_CC0_reg
       Basic.TCC1_PER_reg].
  destruct (Basic.TCC1_CC0_reg s =? 0); repeat split.
Qed.

(** X11. In the basic sketch the match handler of TC0 tests the
    carrier's compare register itself: starting with the register at
    [VOL] (where [setup] leaves it), after n matches it holds [VOL]
    when n is even and 0 when n is odd; [VOL], the tone period in
    TC0's compare register and the carrier's period are never touched,
    and a further entry of the handler without a new match changes
    nothing. *)
Theorem TC0_Handler_alternates n s :
  Basic.TCC1_CC0_reg s = to_uint32 (Basic.VOL s) ->
  Basic.TCC1_CC0_reg (Nat.iter n Basic.match_event s)
  = (if Nat.even n then to_uint32 (Basic.VOL s) else 0) /\
  Basic.VOL (Nat.iter n Basic.match_event s) = Basic.VOL s /\
  Basic.TC0_CC0_reg (Nat.iter n Basic.match_event s) = Basic.TC0_CC0_reg s /\
  Basic.TCC1_PER_reg (Nat.iter n Basic.match_event s) = Basic.TCC1_PER_reg s /\
  Basic.TC0_Handler (Nat.iter (S n) Basic.match_event s)
  = Nat.iter (S n) Basic.match_event s.
Proof.
  intros H0.
  assert (Hinv : forall k,
             Basic.TCC1_CC0_reg (Nat.iter k Basic.match_event s)
             = (if Nat.even k then to_uint32 (Basic.VOL s) else 0) /\
             Basic.VOL (Nat.iter k Basic.match_event s) = Basic.VOL s /\
             Basic.TC0_CC0_reg (Nat.iter k Basic.match_event s)
             = Basic.TC0_CC0_reg s /\
             Basic.TCC1_PER_reg (Nat.iter k Basic.match_event s)
             = Basic.TCC1_PER_reg s).
  { induction k as [| k (IH1 & IH2 & IH3 & IH4)].
    - cbn [Nat.iter nat_rect Nat.even]. auto.
    - change (Nat.iter (S k) Basic.match_event s)
        with (Basic.match_event (Nat.iter k Basic.match_event s)).
      destruct (match_event_fields (Nat.iter k Basic.match_event s))
        as (E1 & E2 & E3 & _ & E5).
      rewrite E1, E2, E3, E5, IH1, IH2, IH3, IH4.
      split; [| auto].
      rewrite Nat.even_succ, <- Nat.negb_even.
      destruct (Nat.even k); cbn [negb].
      + destruct (Z.eqb_spec (to_uint32 (Basic.VOL s)) 0); congruence.
      + reflexivity. }
  destruct (Hinv n) as (H1 & H2 & H3 & H4).
  repeat (split; [assumption |]).
  change (Nat.iter (S n) Basic.match_event s)
    with (Basic.match_event (Nat.iter n Basic.match_event s)).
  destruct (match_event_fields (Nat.iter n Basic.match_event s))
    as (_ & _ & _ & E4 & _).
  unfold Basic.TC0_Handler at 1. now rewrite E4.
Qed.

Lemma TC0_Handler_alternates_witness :
  exists s0,
    Basic.setup 0 1 = Some s0 /\
    Basic.TCC1_CC0_reg (Nat.iter 3 Basic.match_event s0) = 0 /\
    Basic.TC0_CC0_reg (Nat.iter 3 Basic.match_event s0) = 13635.
Proof.
  destruct (Basic.setup 0 1) as [s0 |] eqn:E; [| vm_compute in E; discriminate E].
  exists s0. split; [reflexivity|].
  assert (H0 : Basic.TCC1_CC0_reg s0 = to_uint32 (Basic.VOL s0))
    by (vm_compute in E; injection E as <-; reflexivity).
  destruct (TC0_Handler_alternates 3 s0 H0) as (H1 & _ & H3 & _).
  split; [exact H1|].
  rewrite H3. vm_compute in E. injection E as <-. reflexivity.
Defined.

(** X12. The static initialiser 12000000L / (2 * TF) - 1 of both SAMD51
    sketches: with TF = 0 it divides by zero; for 1 <= TF < 2^30 it is
    12000000 / (2 TF) - 1, which fits the 16-bit period register
    exactly for TF in 92..6000000; above 6000000 it is -1, which the
    register receives as 65535; and for TF in 92..2449 the period gives
    back TF exactly: 12000000 / (2 (TCTOP + 1)) = TF. *)
Theorem TCTOPL_init_domain tf :
  0 <= tf < 2 ^ 30 ->
  (tf = 0 -> TCTOPL_init tf = None) /\
  (0 < tf ->
   exists l,
     TCTOPL_init tf = Some l /\
     l = GCLK8_Hz / (2 * tf) - 1 /\
     (to_uint16 l = l <-> 92 <= tf <= 6000000) /\
     (6000000 < tf -> l = -1 /\ to_uint16 l = 65535) /\
     (92 <= tf <= 2449 -> GCLK8_Hz / (2 * (to_uint16 l + 1)) = tf)).
Proof.
  intros Htf. split; [intros ->; reflexivity |]. intros Hpos.
  unfold TCTOPL_init, GCLK8_Hz.
  rewrite (to_int32_small (2 * tf)) by lia.
  destruct (Z.eqb_spec (2 * tf) 0); [lia|].
  rewrite quot_div_nonneg by lia.
  assert (Hq : 0 <= 12000000 / (2 * tf) <= 12000000).
  { split; [apply Z.div_pos; lia | apply Z.div_le_upper_bound; lia]. }
  rewrite to_int32_small by lia.
  eexists. split; [reflexivity|]. split; [reflexivity|].
  assert (Hbig : 6000000 < tf -> 12000000 / (2 * tf) = 0)
    by (intros; apply Z.div_small; lia).
  assert (Hlow : tf < 92 -> 65934 <= 12000000 / (2 * tf))
    by (intros; apply Z.div_le_lower_bound; lia).
  assert (Hfit : 92 <= tf <= 6000000 -> 1 <= 12000000 / (2 * tf) <= 65536).
  { intros H. split.
    - apply Z.div_le_lower_bound; lia.
    - assert (12000000 / (2 * tf) < 65537); [| lia].
      apply Z.div_lt_upper_bound; lia. }
  split; [| split].
  - split.
    + intros Hfix.
      pose proof (to_uint16_range (12000000 / (2 * tf) - 1)) as Hr.
      rewrite Hfix in Hr. change (2 ^ 16) with 65536 in Hr.
      destruct (Z_lt_ge_dec tf 92); [specialize (Hlow ltac:(lia)); lia |].
      destruct (Z_lt_ge_dec 6000000 tf); [specialize (Hbig ltac:(lia)); lia |].
      lia.
    + intros H. specialize (Hfit H). apply to_uint16_small.
      change (2 ^ 16) with 65536. lia.
  - intros H. rewrite (Hbig H). split; reflexivity.
  - intros H. specialize (Hfit ltac:(lia)).
    rewrite to_uint16_small by (change (2 ^ 16) with 65536; lia).
    replace (12000000 / (2 * tf) - 1 + 1) with (12000000 / (2 * tf)) by lia.
    set (q := 12000000 / (2 * tf)) in *.
    assert (Hdm : 12000000 = 2 * tf * q + 12000000 mod (2 * tf))
      by (apply Z.div_mod; lia).
    pose proof (Z.mod_pos_bound 12000000 (2 * tf) ltac:(lia)) as Hm.
    assert (Hge : tf <= q).
    { apply Z.div_le_lower_bound; [lia|]. nia. }
    symmetry. apply Z.div_unique with (r := 12000000 mod (2 * tf)).
    + left. lia.
    + lia.
Qed.

Lemma TCTOPL_init_domain_witness :
  exists l, TCTOPL_init 440 = Some l /\ to_uint16 l = l /\
            GCLK8_Hz / (2 * (to_uint16 l + 1)) = 440.
Proof.
  assert (Htf : 0 <= 440 < 2 ^ 30) by lia.
  assert (Hpos : 0 < 440) by lia.
  destruct (proj2 (TCTOPL_init_domain 440 Htf) Hpos)
    as (l & E & _ & Hfit & _ & Hrt).
  exists l. split; [exact E|]. split.
  - apply Hfit. lia.
  - apply Hrt. lia.
Defined.

(** * The ESP32 sketch *)

Lemma timerSizeprescaler_value : ESP32Loop.timerSizeprescaler = 40000000.
Proof. reflexivity. Qed.

Lemma update_pitch_audible p s :
  1 <= p <= 20000000 ->
  ESP32Loop.update_pitch p s
  = Some (ESP32Loop.mkSketch (ESP32Loop.tmr s) (ESP32Loop.pitch s)
            (20000000 / p) (20000000 / p) (ESP32Loop.update_now s)) /\
  1 <= 20000000 / p <= 20000000.
Proof.
  intros Hp.
  assert (Hq : 1 <= 20000000 / p <= 20000000).
  { split.
    - apply Z.div_le_lower_bound; lia.
    - apply Z.div_le_upper_bound; lia. }
  split; [| exact Hq].
  unfold ESP32Loop.update_pitch. rewrite timerSizeprescaler_value.
  rewrite (to_int32_small (p * 2)) by lia.
  destruct (Z.eqb_spec (p * 2) 0); [lia|].
  rewrite quot_div_nonneg by lia.
  replace (40000000 / (p * 2)) with (20000000 / p).
  - rewrite to_int32_small by lia.
    rewrite Z.mod_small by lia. reflexivity.
  - rewrite (Z.mul_comm p 2), <- Z.div_div by lia. reflexivity.
Qed.

Lemma tick_sweep s :
  ESP32Loop.in_sweep s ->
  exists s',
    ESP32Loop.tick s = Some s' /\
    ESP32Loop.pitch s'
    = (if ESP32Loop.pitch s <? 2000 then ESP32Loop.pitch s + 1 else 440) /\
    ESP32.amp (ESP32Loop.tmr s')
    = (if ESP32.amp (ESP32Loop.tmr s) <? 5
       then 255 else ESP32.amp (ESP32Loop.tmr s) - 1) /\
    ESP32Loop.timerSW_top s' = 20000000 / ESP32Loop.pitch s' /\
    ESP32Loop.alarmSW s' = ESP32Loop.timerSW_top s' /\
    ESP32Loop.update_now s' = false /\
    ESP32.up (ESP32Loop.tmr s') = ESP32.up (ESP32Loop.tmr s) /\
    ESP32.DAC1 (ESP32Loop.tmr s') = ESP32.DAC1 (ESP32Loop.tmr s).
Proof.
  intros [Hp Ha].
  unfold ESP32Loop.tick, ESP32Loop.loop, ESP32Loop.onTimerSU.
  cbn [ESP32Loop.update_now ESP32Loop.pitch ESP32Loop.tmr
       ESP32Loop.timerSW_top ESP32Loop.alarmSW].
  set (p' := if ESP32Loop.pitch s <? 2000
             then to_int32 (ESP32Loop.pitch s + 1)
             else ESP32Loop.pitch_initial).
  assert (Hp' : p' = (if ESP32Loop.pitch s <? 2000
                      then ESP32Loop.pitch s + 1 else 440)).
  { unfold p'. destruct (Z.ltb_spec (ESP32Loop.pitch s) 2000);
      [apply to_int32_small; lia | reflexivity]. }
  assert (Hr : 440 <= p' <= 2000).
  { rewrite Hp'. destruct (Z.ltb_spec (ESP32Loop.pitch s) 2000); lia. }
  match goal with
  | |- context [ESP32Loop.update_pitch p' ?s0] =>
      destruct (update_pitch_audible p' s0) as [-> _]; [lia |]
  end.
  cbn [ESP32Loop.update_now ESP32Loop.pitch ESP32Loop.tmr
       ESP32Loop.timerSW_top ESP32Loop.alarmSW].
  eexists. split; [reflexivity|].
  cbn [ESP32Loop.update_now ESP32Loop.pitch ESP32Loop.tmr
       ESP32Loop.timerSW_top ESP32Loop.alarmSW ESP32.amp ESP32.up ESP32.DAC1].
  split; [exact Hp' |]. split.
  - unfold ESP32Loop.amp_max.
    destruct (Z.ltb_spec (ESP32.amp (ESP32Loop.tmr s)) 5);
      [reflexivity | apply to_int32_small; lia].
  - repeat split.
Qed.

Lemma tick_in_sweep s s' :
  ESP32Loop.in_sweep s -> ESP32Loop.tick s = Some s' -> ESP32Loop.in_sweep s'.
Proof.
  intros Hs E. destruct (tick_sweep s Hs) as (s1 & E1 & Hp & Ha & _).
  rewrite E in E1. injection E1 as <-. destruct Hs as [Hps Has].
  split.
  - rewrite Hp. destruct (Z.ltb_spec (ESP32Loop.pitch s) 2000); lia.
  - rewrite Ha. destruct (Z.ltb_spec (ESP32.amp (ESP32Loop.tmr s)) 5); lia.
Qed.

(** X13. The ESP32 sweep never leaves its range and never divides by
    zero: from a pitch in 440..2000 and an amplitude in 4..255, an
    update (the update timer fires, then [loop] runs) is defined, keeps
    both ranges, clears [update_now], and sets the tone timer's alarm to
    20000000 / pitch for the new pitch, a value in 10000..45454 that
    gives back the pitch: 20000000 / alarm = pitch. *)
Theorem tick_keeps_sweep s :
  ESP32Loop.in_sweep s ->
  exists s',
    ESP32Loop.tick s = Some s' /\
    ESP32Loop.in_sweep s' /\
    ESP32Loop.update_now s' = false /\
    ESP32Loop.timerSW_top s' = 20000000 / ESP32Loop.pitch s' /\
    ESP32Loop.alarmSW s' = ESP32Loop.timerSW_top s' /\
    10000 <= ESP32Loop.alarmSW s' <= 45454 /\
    20000000 / ESP32Loop.alarmSW s' = ESP32Loop.pitch s'.
Proof.
  intros Hs.
  destruct (tick_sweep s Hs) as (s' & E & Hp & Ha & Ht & Hal & Hu & _).
  pose proof (tick_in_sweep s s' Hs E) as Hs'.
  exists s'. split; [exact E|]. split; [exact Hs'|]. split; [exact Hu|].
  split; [exact Ht|]. split; [exact Hal|].
  destruct Hs' as [Hr _]. rewrite Hal, Ht.
  set (p := ESP32Loop.pitch s') in *.
  assert (Hq : 10000 <= 20000000 / p <= 45454).
  { split.
    - apply Z.div_le_lower_bound; lia.
    - assert (20000000 / p < 45455); [| lia].
      apply Z.div_lt_upper_bound; lia. }
  split; [exact Hq|].
  assert (Hdm : 20000000 = p * (20000000 / p) + 20000000 mod p)
    by (apply Z.div_mod; lia).
  pose proof (Z.mod_pos_bound 20000000 p ltac:(lia)) as Hm.
  symmetry. apply Z.div_unique with (r := 20000000 mod p); [left; lia | lia].
Qed.

Lemma tick_keeps_sweep_witness :
  exists s',
    ESP32Loop.tick
      (ESP32Loop.mkSketch (ESP32.mkTimerState true 127 0) 440 45454 0 false)
    = Some s' /\
    ESP32Loop.in_sweep s' /\
    ESP32Loop.update_now s' = false.
Proof.
  assert (Hs : ESP32Loop.in_sweep
                 (ESP32Loop.mkSketch (ESP32.mkTimerState true 127 0)
                    440 45454 0 false))
    by (unfold ESP32Loop.in_sweep; cbn; lia).
  destruct (tick_keeps_sweep _ Hs) as (s' & E & Hs' & Hu & _).
  exists s'. split; [exact E|]. split; [exact Hs' | exact Hu].
Defined.

Lemma sweep_pitch_step p :
  440 <= p <= 2000 ->
  (if p <? 2000 then p + 1 else 440) = 440 + (p - 440 + 1) mod 1561.
Proof.
  intros Hp. destruct (Z.ltb_spec p 2000).
  - rewrite Z.mod_small by lia. lia.
  - replace p with 2000 by lia. reflexivity.
Qed.

Lemma sweep_amp_step a :
  4 <= a <= 255 ->
  (if a <? 5 then 255 else a - 1) = 4 + (a - 4 - 1) mod 252.
Proof.
  intros Ha. destruct (Z.ltb_spec a 5).
  - replace a with 4 by lia. reflexivity.
  - rewrite Z.mod_small by lia. lia.
Qed.

Lemma ticks_sweep n :
  forall s,
    ESP32Loop.in_sweep s ->
    exists s',
      ESP32Loop.ticks n s = Some s' /\
      ESP32Loop.in_sweep s' /\
      ESP32Loop.pitch s'
      = 440 + (ESP32Loop.pitch s - 440 + Z.of_nat n) mod 1561 /\
      ESP32.amp (ESP32Loop.tmr s')
      = 4 + (ESP32.amp (ESP32Loop.tmr s) - 4 - Z.of_nat n) mod 252 /\
      ESP32.up (ESP32Loop.tmr s') = ESP32.up (ESP32Loop.tmr s) /\
      ESP32.DAC1 (ESP32Loop.tmr s') = ESP32.DAC1 (ESP32Loop.tmr s).
Proof.
  induction n as [| n IH]; intros s Hs.
  - exists s. split; [reflexivity|]. split; [exact Hs|].
    destruct Hs as [Hp Ha]. cbn [Z.of_nat].
    rewrite Z.add_0_r, Z.sub_0_r, !Z.mod_small by lia.
    repeat split; lia.
  - destruct (tick_sweep s Hs) as (s1 & E & Hp & Ha & _ & _ & _ & Hu & Hd).
    pose proof (tick_in_sweep s s1 Hs E) as Hs1.
    destruct (IH s1 Hs1) as (s' & E' & Hs' & Hp' & Ha' & Hu' & Hd').
    exists s'. rewrite Nat2Z.inj_succ. cbn [ESP32Loop.ticks]. rewrite E.
    cbv beta iota.
    split; [exact E'|]. split; [exact Hs'|].
    destruct Hs as [Hps Has].
    rewrite Hp', Ha', Hu', Hd', Hp, Ha.
    rewrite sweep_pitch_step, sweep_amp_step by assumption.
    repeat split; try assumption.
    + f_equal.
      replace (440 + (ESP32Loop.pitch s - 440 + 1) mod 1561 - 440
               + Z.of_nat n)
        with ((ESP32Loop.pitch s - 440 + 1) mod 1561 + Z.of_nat n) by lia.
      rewrite Z.add_mod_idemp_l by lia. f_equal. lia.
    + f_equal.
      replace (4 + (ESP32.amp (ESP32Loop.tmr s) - 4 - 1) mod 252 - 4
               - Z.of_nat n)
        with ((ESP32.amp (ESP32Loop.tmr s) - 4 - 1) mod 252
              + - Z.of_nat n) by lia.
      rewrite Z.add_mod_idemp_l by lia. f_equal. lia.
Qed.

(** X14. The sweep in closed form: n updates from a pitch p in
    440..2000 and an amplitude a in 4..255 leave the pitch at
    440 + (p - 440 + n) mod 1561 and the amplitude at
    4 + (a - 4 - n) mod 252; so both are back where they were after
    any multiple of 56196 = 36 x 1561 = 223 x 252 further updates, the
    common period of the two ramps. *)
Theorem sweep_closed_form n k s :
  ESP32Loop.in_sweep s ->
  exists s' s'',
    ESP32Loop.ticks n s = Some s' /\
    ESP32Loop.pitch s'
    = 440 + (ESP32Loop.pitch s - 440 + Z.of_nat n) mod 1561 /\
    ESP32.amp (ESP32Loop.tmr s')
    = 4 + (ESP32.amp (ESP32Loop.tmr s) - 4 - Z.of_nat n) mod 252 /\
    ESP32Loop.ticks (n + k * (36 * 1561)) s = Some s'' /\
    ESP32Loop.pitch s'' = ESP32Loop.pitch s' /\
    ESP32.amp (ESP32Loop.tmr s'') = ESP32.amp (ESP32Loop.tmr s').
Proof.
  intros Hs.
  destruct (ticks_sweep n s Hs) as (s' & E & _ & Hp & Ha & _).
  destruct (ticks_sweep (n + k * (36 * 1561)) s Hs)
    as (s'' & E' & _ & Hp' & Ha' & _).
  exists s', s''. split; [exact E|]. split; [exact Hp|]. split; [exact Ha|].
  split; [exact E'|].
  rewrite Hp, Ha, Hp', Ha', Nat2Z.inj_add, !Nat2Z.inj_mul.
  change (Z.of_nat 36) with 36. change (Z.of_nat 1561) with 1561.
  split; f_equal.
  - replace (ESP32Loop.pitch s - 440 + (Z.of_nat n + Z.of_nat k * (36 * 1561)))
      with (ESP32Loop.pitch s - 440 + Z.of_nat n + (Z.of_nat k * 36) * 1561)
      by lia.
    apply Z.mod_add. lia.
  - replace (ESP32.amp (ESP32Loop.tmr s) - 4
             - (Z.of_nat n + Z.of_nat k * (36 * 1561)))
      with (ESP32.amp (ESP32Loop.tmr s) - 4 - Z.of_nat n
            + (- (Z.of_nat k * 223)) * 252) by lia.
    apply Z.mod_add. lia.
Qed.

Lemma sweep_closed_form_witness :
  exists s',
    ESP32Loop.ticks 3
      (ESP32Loop.mkSketch (ESP32.mkTimerState true 127 0) 440 45454 0 false)
    = Some s' /\
    ESP32Loop.pitch s' = 443 /\ ESP32.amp (ESP32Loop.tmr s') = 124.
Proof.
  assert (Hs : ESP32Loop.in_sweep
                 (ESP32Loop.mkSketch (ESP32.mkTimerState true 127 0)
                    440 45454 0 false))
    by (unfold ESP32Loop.in_sweep; cbn; lia).
  destruct (sweep_closed_form 3 1 _ Hs) as (s' & _ & E & Hp & Ha & _).
  exists s'. split; [exact E|]. split; [exact Hp | exact Ha].
Defined.

Lemma step_sweep e s :
  ESP32Loop.in_sweep s ->
  exists s',
    ESP32Loop.step e s = Some s' /\
    ESP32Loop.in_sweep s' /\
    ESP32.up (ESP32Loop.tmr s')
    = (match e with
       | ESP32Loop.Alarm => negb (ESP32.up (ESP32Loop.tmr s))
       | ESP32Loop.Update => ESP32.up (ESP32Loop.tmr s)
       end).
Proof.
  intros Hs. destruct e; cbn [ESP32Loop.step].
  - eexists. split; [reflexivity|]. split; [exact Hs | reflexivity].
  - destruct (tick_sweep s Hs) as (s' & E & _ & _ & _ & _ & _ & Hu & _).
    exists s'. split; [exact E|].
    split; [exact (tick_in_sweep s s' Hs E) | exact Hu].
Qed.

(** X15. Over any interleaving of tone-timer alarms and updates that
    starts inside the sweep ranges, the sketch keeps running (no
    division by zero), [up] has flipped once per alarm, and the next
    alarm hands [dacWrite] the amplitude itself, a value in 4..255 that
    its 8-bit parameter does not truncate, when [up] is set, and 0
    otherwise. *)
Theorem dac_output_over_traces es :
  forall s,
    ESP32Loop.in_sweep s ->
    exists s',
      ESP32Loop.run es s = Some s' /\
      ESP32Loop.in_sweep s' /\
      ESP32.up (ESP32Loop.tmr s')
      = (if Nat.even (ESP32Loop.alarms es)
         then ESP32.up (ESP32Loop.tmr s)
         else negb (ESP32.up (ESP32Loop.tmr s))) /\
      ESP32.DAC1 (ESP32Loop.tmr (ESP32Loop.onTimerSW s'))
      = (if ESP32.up (ESP32Loop.tmr s')
         then ESP32.amp (ESP32Loop.tmr s') else 0) /\
      ESP32.amp (ESP32Loop.tmr (ESP32Loop.onTimerSW s'))
      = ESP32.amp (ESP32Loop.tmr s').
Proof.
  induction es as [| e es IH]; intros s Hs.
  - exists s. split; [reflexivity|]. split; [exact Hs|].
    split; [reflexivity|].
    unfold ESP32Loop.onTimerSW, ESP32.onTimerSW, ESP32.dacWrite.
    cbn [ESP32Loop.tmr ESP32.DAC1 ESP32.amp]. split; [| reflexivity].
    destruct Hs as [_ Ha].
    destruct (ESP32.up (ESP32Loop.tmr s)); [| reflexivity].
    apply Z.mod_small. lia.
  - destruct (step_sweep e s Hs) as (s1 & E & Hs1 & Hu1).
    destruct (IH s1 Hs1) as (s' & E' & Hs' & Hu' & Hd' & Ha').
    exists s'. cbn [ESP32Loop.run]. rewrite E. cbv beta iota.
    split; [exact E'|]. split; [exact Hs'|].
    split; [| split; assumption].
    rewrite Hu', Hu1. destruct e.
    + change (ESP32Loop.alarms (ESP32Loop.Alarm :: es))
        with (S (ESP32Loop.alarms es)).
      rewrite Nat.even_succ, <- Nat.negb_even.
      destruct (Nat.even (ESP32Loop.alarms es)),
               (ESP32.up (ESP32Loop.tmr s)); reflexivity.
    + reflexivity.
Qed.

Lemma dac_output_over_traces_witness :
  exists s',
    ESP32Loop.run [ESP32Loop.Alarm; ESP32Loop.Update; ESP32Loop.Alarm;
                   ESP32Loop.Alarm]
      (ESP32Loop.mkSketch (ESP32.mkTimerState true 127 0) 440 45454 0 false)
    = Some s' /\
    ESP32.up (ESP32Loop.tmr s') = false /\
    ESP32.DAC1 (ESP32Loop.tmr (ESP32Loop.onTimerSW s')) = 0.
Proof.
  assert (Hs : ESP32Loop.in_sweep
                 (ESP32Loop.mkSketch (ESP32.mkTimerState true 127 0)
                    440 45454 0 false))
    by (unfold ESP32Loop.in_sweep; cbn; lia).
  destruct (dac_output_over_traces
              [ESP32Loop.Alarm; ESP32Loop.Update; ESP32Loop.Alarm;
               ESP32Loop.Alarm] _ Hs)
    as (s' & E & _ & Hu & Hd & _).
  exists s'. split; [exact E|].
  assert (Hu' : ESP32.up (ESP32Loop.tmr s') = false) by exact Hu.
  split; [exact Hu'|]. rewrite Hd, Hu'. reflexivity.
Defined.

(** X16. [update_pitch] over its whole parameter range: a pitch of 0
    divides by zero; for a pitch in 1..20000000 the alarm of the tone
    timer becomes 20000000 / pitch, which gives back the pitch exactly
    (20000000 / alarm = pitch) up to 4472; above 20000000 the alarm is
    0; and for a negative pitch the quotient is negative or 0 and the
    64-bit alarm register receives it modulo 2^64. *)
Theorem update_pitch_domain p s :
  - 2 ^ 30 <= p < 2 ^ 30 ->
  (p = 0 -> ESP32Loop.update_pitch p s = None) /\
  (p <> 0 ->
   exists s',
     ESP32Loop.update_pitch p s = Some s' /\
     ESP32Loop.tmr s' = ESP32Loop.tmr s /\
     ESP32Loop.pitch s' = ESP32Loop.pitch s /\
     ESP32Loop.alarmSW s' = ESP32Loop.timerSW_top s' mod 2 ^ 64 /\
     (1 <= p <= 20000000 ->
      ESP32Loop.timerSW_top s' = 20000000 / p /\
      ESP32Loop.alarmSW s' = 20000000 / p) /\
     (1 <= p <= 4472 -> 20000000 / ESP32Loop.alarmSW s' = p) /\
     (20000000 < p -> ESP32Loop.alarmSW s' = 0) /\
     (p < 0 ->
      ESP32Loop.timerSW_top s' = - (20000000 / - p) /\
      (- p <= 20000000 ->
       ESP32Loop.alarmSW s' = 2 ^ 64 - 20000000 / - p))).
Proof.
  intros Hp. split; [intros ->; reflexivity |]. intros Hne.
  unfold ESP32Loop.update_pitch. rewrite timerSizeprescaler_value.
  rewrite (to_int32_small (p * 2)) by lia.
  destruct (Z.eqb_spec (p * 2) 0); [lia|].
  eexists. split; [reflexivity|].
  cbn [ESP32Loop.tmr ESP32Loop.pitch ESP32Loop.alarmSW ESP32Loop.timerSW_top].
  split; [reflexivity|]. split; [reflexivity|]. split; [reflexivity|].
  assert (Hhalf : forall q, 0 < q -> 40000000 / (q * 2) = 20000000 / q).
  { intros q Hq. rewrite (Z.mul_comm q 2), <- Z.div_div by lia. reflexivity. }
  assert (Hpos : 1 <= p <= 20000000 ->
                 to_int32 (Z.quot 40000000 (p * 2)) = 20000000 / p /\
                 1 <= 20000000 / p <= 20000000).
  { intros H. rewrite quot_div_nonneg, Hhalf by lia.
    assert (1 <= 20000000 / p <= 20000000).
    { split; [apply Z.div_le_lower_bound; lia
             | apply Z.div_le_upper_bound; lia]. }
    split; [apply to_int32_small; lia | assumption]. }
  split; [| split; [| split]].
  - intros H. destruct (Hpos H) as [-> Hq].
    split; [reflexivity | apply Z.mod_small; lia].
  - intros H. destruct (Hpos ltac:(lia)) as [-> Hq].
    rewrite Z.mod_small by lia.
    assert (Hdm : 20000000 = p * (20000000 / p) + 20000000 mod p)
      by (apply Z.div_mod; lia).
    pose proof (Z.mod_pos_bound 20000000 p ltac:(lia)) as Hm.
    assert (Hge : p <= 20000000 / p).
    { apply Z.div_le_lower_bound; [lia|]. nia. }
    symmetry. apply Z.div_unique with (r := 20000000 mod p); [left; lia | lia].
  - intros H. rewrite quot_div_nonneg, Hhalf by lia.
    rewrite (Z.div_small 20000000 p) by lia. reflexivity.
  - intros H.
    assert (Hq : Z.quot 40000000 (p * 2) = - (20000000 / - p)).
    { replace (p * 2) with (- (- p * 2)) by lia.
      rewrite Z.quot_opp_r by lia.
      rewrite quot_div_nonneg, Hhalf by lia. reflexivity. }
    assert (Hb : 0 <= 20000000 / - p <= 20000000).
    { split; [apply Z.div_pos; lia | apply Z.div_le_upper_bound; lia]. }
    rewrite Hq, to_int32_small by lia.
    split; [reflexivity|]. intros Hsmall.
    assert (1 <= 20000000 / - p) by (apply Z.div_le_lower_bound; lia).
    symmetry. apply Z.mod_unique with (q := -1); [left; lia | lia].
Qed.

Lemma update_pitch_domain_witness :
  exists s',
    ESP32Loop.update_pitch 441
      (ESP32Loop.mkSketch (ESP32.mkTimerState true 127 0) 441 45454 0 true)
    = Some s' /\
    ESP32Loop.alarmSW s' = 20000000 / 441 /\
    20000000 / ESP32Loop.alarmSW s' = 441.
Proof.
  assert (Hp : - 2 ^ 30 <= 441 < 2 ^ 30) by lia.
  assert (Hne : 441 <> 0) by lia.
  destruct (proj2 (update_pitch_domain 441
                     (ESP32Loop.mkSketch (ESP32.mkTimerState true 127 0)
                        441 45454 0 true) Hp) Hne)
    as (s' & E & _ & _ & _ & Hq & Hrt & _).
  exists s'. split; [exact E|]. split.
  - apply Hq. lia.
  - apply Hrt. lia.
Defined.

(** The static initialisers start the sketch inside the sweep ranges. *)
Lemma initial_in_sweep :
  ESP32Loop.initial
  = Some (ESP32Loop.mkSketch (ESP32.mkTimerState true 127 0) 440 45454 0 false)
  /\ ESP32Loop.in_sweep
       (ESP32Loop.mkSketch (ESP32.mkTimerState true 127 0) 440 45454 0 false).
Proof.
  split; [vm_compute; reflexivity |].
  unfold ESP32Loop.in_sweep. cbn. lia.
Qed.
